(** * Radio TX Studio backend: the playback relay of [server.js]

    A shallow embedding of the Express handlers [POST /api/play],
    [POST /api/pause], [GET /api/stream-status], of [cleanupStream] and of
    the socket and read-stream callbacks that [POST /api/play] registers.

    The server is single threaded: every handler and every callback runs to
    completion on the event loop.  The embedding is therefore a step
    function [step] over a [world] (the module-level variables of
    [server.js] together with the sockets and read streams the program has
    created), driven by the [event]s that the runtime delivers. *)

From Stdlib Require Import ZArith QArith Qround String List Bool Lia.
From Stdlib Require Import DecimalPos DecimalN Lqa.
From stdpp Require Import base option list strings gmap.
Close Scope Q_scope.
Local Open Scope Z_scope.

(** ** JSON values read from a request body *)

Inductive jsval :=
| JUndefined
| JNull
| JBool (b : bool)
| JNum (z : Z)
| JStr (s : string)
| JObj.

(** [!v] is [negb (truthy v)]. *)
Definition truthy (v : jsval) : bool :=
  match v with
  | JUndefined | JNull => false
  | JBool b => b
  | JNum z => negb (z =? 0)
  | JStr s => negb (String.eqb s EmptyString)
  | JObj => true
  end.

(** Numbers that are not counters (seconds, bytes per second) are
    rationals; a number is falsy exactly when it is zero. *)
Definition truthyQ (q : Q) : bool := negb (Qeq_bool q 0).

(** [o || d] where [o] is a number, [null] or [undefined]. *)
Definition or_num (o : option Q) (d : Q) : Q :=
  match o with
  | Some q => if truthyQ q then q else d
  | None => d
  end.

(** ** The in-memory state [STATE] *)

Record session := Session {
  playing : bool;
  currentFile : option string;
  bytesSent : Z;
  durationSec : Q;
  byteRate : Q
}.

Definition STATE0 : session :=
  {| playing := false; currentFile := None; bytesSent := 0;
     durationSec := 0%Q; byteRate := 0%Q |}.

Definition set_playing (b : bool) (st : session) : session :=
  {| playing := b; currentFile := currentFile st; bytesSent := bytesSent st;
     durationSec := durationSec st; byteRate := byteRate st |}.

Definition set_currentFile (f : option string) (st : session) : session :=
  {| playing := playing st; currentFile := f; bytesSent := bytesSent st;
     durationSec := durationSec st; byteRate := byteRate st |}.

Definition set_bytesSent (n : Z) (st : session) : session :=
  {| playing := playing st; currentFile := currentFile st; bytesSent := n;
     durationSec := durationSec st; byteRate := byteRate st |}.

Definition set_durationSec (d : Q) (st : session) : session :=
  {| playing := playing st; currentFile := currentFile st;
     bytesSent := bytesSent st; durationSec := d; byteRate := byteRate st |}.

Definition set_byteRate (r : Q) (st : session) : session :=
  {| playing := playing st; currentFile := currentFile st;
     bytesSent := bytesSent st; durationSec := durationSec st; byteRate := r |}.

(** ** [inspectWav] *)

(** What [wavInfo.infoByFilename] hands to its callback. *)
Record wav_header := WavHeader {
  sample_rate : option Q;
  bits_per_sample : option Q;
  channels : option Q;
  length_sec : option Q
}.

(** The object [inspectWav] resolves with; [None] is [null]/[undefined]. *)
Record wav_info := WavInfo {
  info_sampleRate : option Q;
  info_bits : option Q;
  info_channels : option Q;
  info_duration : option Q;
  info_byteRate : option Q
}.

(** [x ? Number(x) : d] *)
Definition num_or (x : option Q) (d : option Q) : option Q :=
  match x with
  | Some q => if truthyQ q then Some q else d
  | None => d
  end.

Definition inspectWav (info : wav_header) : wav_info :=
  let sampleRate := num_or (sample_rate info) None in
  let bits := num_or (bits_per_sample info) (Some 16%Q) in
  let chans := num_or (channels info) (Some 1%Q) in
  let duration := num_or (length_sec info) None in
  let rate :=
    match sampleRate, bits, chans with
    | Some sr, Some b, Some c =>
        if truthyQ sr && truthyQ b then Some (sr * c * (b / 8))%Q else None
    | _, _, _ => None
    end in
  {| info_sampleRate := sampleRate; info_bits := bits; info_channels := chans;
     info_duration := duration; info_byteRate := rate |}.

(** [inspectWav(filePath).catch(() => ({}))]: a rejected inspection yields
    the empty object, whose properties all read [undefined]. *)
Definition empty_info : wav_info :=
  {| info_sampleRate := None; info_bits := None; info_channels := None;
     info_duration := None; info_byteRate := None |}.

Definition inspect_or_empty (r : option wav_header) : wav_info :=
  match r with
  | Some h => inspectWav h
  | None => empty_info
  end.

(** ** Sockets and read streams *)

(** A [net.Socket] created by the play handler.  [sk_filePath] and [sk_res]
    are the variables [filePath] and [res] captured by the callback given to
    [connect]; [sk_written] collects the chunks passed to [write] by the
    pipe. *)
Record socket := Socket {
  sk_connecting : bool;
  sk_ended : bool;
  sk_destroyed : bool;
  sk_closed : bool;
  sk_filePath : string;
  sk_res : nat;
  sk_written : list Byte.byte
}.

(** A [fs.ReadStream] created by the connect callback: the file it reads,
    the offset of the next byte, and the socket it is piped into. *)
Record rstream := RStream {
  rs_path : string;
  rs_pos : Z;
  rs_destroyed : bool;
  rs_pipe : option nat
}.

Definition sk_end (s : socket) : socket :=
  {| sk_connecting := sk_connecting s; sk_ended := true;
     sk_destroyed := sk_destroyed s; sk_closed := sk_closed s;
     sk_filePath := sk_filePath s; sk_res := sk_res s;
     sk_written := sk_written s |}.

Definition sk_destroy (s : socket) : socket :=
  {| sk_connecting := sk_connecting s; sk_ended := sk_ended s;
     sk_destroyed := true; sk_closed := sk_closed s;
     sk_filePath := sk_filePath s; sk_res := sk_res s;
     sk_written := sk_written s |}.

Definition sk_close (s : socket) : socket :=
  {| sk_connecting := sk_connecting s; sk_ended := sk_ended s;
     sk_destroyed := true; sk_closed := true;
     sk_filePath := sk_filePath s; sk_res := sk_res s;
     sk_written := sk_written s |}.

Definition sk_connected (s : socket) : socket :=
  {| sk_connecting := false; sk_ended := sk_ended s;
     sk_destroyed := sk_destroyed s; sk_closed := sk_closed s;
     sk_filePath := sk_filePath s; sk_res := sk_res s;
     sk_written := sk_written s |}.

(** [write(chunk)]: a socket that has been ended or destroyed takes no
    more data. *)
Definition sk_write (chunk : list Byte.byte) (s : socket) : socket :=
  if sk_ended s || sk_destroyed s then s
  else
    {| sk_connecting := sk_connecting s; sk_ended := sk_ended s;
       sk_destroyed := sk_destroyed s; sk_closed := sk_closed s;
       sk_filePath := sk_filePath s; sk_res := sk_res s;
       sk_written := sk_written s ++ chunk |}.

Definition new_socket (filePath : string) (res : nat) : socket :=
  {| sk_connecting := true; sk_ended := false; sk_destroyed := false;
     sk_closed := false; sk_filePath := filePath; sk_res := res;
     sk_written := [] |}.

Definition rs_destroy (r : rstream) : rstream :=
  {| rs_path := rs_path r; rs_pos := rs_pos r; rs_destroyed := true;
     rs_pipe := rs_pipe r |}.

Definition rs_advance (n : Z) (r : rstream) : rstream :=
  {| rs_path := rs_path r; rs_pos := rs_pos r + n;
     rs_destroyed := rs_destroyed r; rs_pipe := rs_pipe r |}.

Definition rs_set_pipe (d : option nat) (r : rstream) : rstream :=
  {| rs_path := rs_path r; rs_pos := rs_pos r;
     rs_destroyed := rs_destroyed r; rs_pipe := d |}.

(** ** The world *)

(** [files] is the upload directory seen through
    [path.join(UPLOAD_DIR, fileId)]; [pending] holds the play handlers
    suspended at [await inspectWav(...)], keyed by request, with the
    [fileId] each one captured; [crashed] records an exception thrown
    outside every [try]. *)
Record world := World {
  STATE : session;
  activeSocket : option nat;
  activeReadStream : option nat;
  sockets : list socket;
  streams : list rstream;
  pending : gmap nat string;
  files : string -> option (list Byte.byte);
  crashed : bool
}.

Definition set_STATE (st : session) (w : world) : world :=
  {| STATE := st; activeSocket := activeSocket w;
     activeReadStream := activeReadStream w; sockets := sockets w;
     streams := streams w; pending := pending w; files := files w;
     crashed := crashed w |}.

Definition set_activeSocket (a : option nat) (w : world) : world :=
  {| STATE := STATE w; activeSocket := a;
     activeReadStream := activeReadStream w; sockets := sockets w;
     streams := streams w; pending := pending w; files := files w;
     crashed := crashed w |}.

Definition set_activeReadStream (a : option nat) (w : world) : world :=
  {| STATE := STATE w; activeSocket := activeSocket w;
     activeReadStream := a; sockets := sockets w;
     streams := streams w; pending := pending w; files := files w;
     crashed := crashed w |}.

Definition set_sockets (l : list socket) (w : world) : world :=
  {| STATE := STATE w; activeSocket := activeSocket w;
     activeReadStream := activeReadStream w; sockets := l;
     streams := streams w; pending := pending w; files := files w;
     crashed := crashed w |}.

Definition set_streams (l : list rstream) (w : world) : world :=
  {| STATE := STATE w; activeSocket := activeSocket w;
     activeReadStream := activeReadStream w; sockets := sockets w;
     streams := l; pending := pending w; files := files w;
     crashed := crashed w |}.

Definition set_pending (p : gmap nat string) (w : world) : world :=
  {| STATE := STATE w; activeSocket := activeSocket w;
     activeReadStream := activeReadStream w; sockets := sockets w;
     streams := streams w; pending := p; files := files w;
     crashed := crashed w |}.

Definition set_crashed (w : world) : world :=
  {| STATE := STATE w; activeSocket := activeSocket w;
     activeReadStream := activeReadStream w; sockets := sockets w;
     streams := streams w; pending := pending w; files := files w;
     crashed := true |}.

(** The process right after start-up, over a given upload directory. *)
Definition world0 (fs : string -> option (list Byte.byte)) : world :=
  {| STATE := STATE0; activeSocket := None; activeReadStream := None;
     sockets := []; streams := []; pending := ∅; files := fs;
     crashed := false |}.

(** Method calls on the object an id stands for. *)
Definition on_socket (f : socket -> socket) (i : nat) (w : world) : world :=
  set_sockets (alter f i (sockets w)) w.

Definition on_stream (f : rstream -> rstream) (i : nat) (w : world) : world :=
  set_streams (alter f i (streams w)) w.

(** ** What the server sends *)

(** A [status] message; [ms_currentFile] is [None] when the message has no
    [currentFile] key, and [Some None] when the key holds [null]. *)
Record status_msg := StatusMsg {
  ms_playing : bool;
  ms_currentFile : option (option string)
}.

(** The body of [GET /api/stream-status]. *)
Record snapshot := Snapshot {
  sn_playing : bool;
  sn_currentFileId : option string;
  sn_position : Z;
  sn_duration : Q
}.

Inductive body :=
| BOk
| BError (msg : string)
| BStatus (s : snapshot).

Inductive output :=
| Respond (req : nat) (code : nat) (b : body)
| Broadcast (m : status_msg).

Definition status_stopped : status_msg :=
  {| ms_playing := false; ms_currentFile := None |}.

(** ** [cleanupStream] and the calls it is made of *)

(** [if (activeReadStream) activeReadStream.destroy()] *)
Definition destroy_active_stream (w : world) : world :=
  match activeReadStream w with
  | Some r => on_stream rs_destroy r w
  | None => w
  end.

(** [if (activeSocket) activeSocket.destroy()] *)
Definition destroy_active_socket (w : world) : world :=
  match activeSocket w with
  | Some s => on_socket sk_destroy s w
  | None => w
  end.

(** [if (activeSocket) activeSocket.end()] *)
Definition end_active_socket (w : world) : world :=
  match activeSocket w with
  | Some s => on_socket sk_end s w
  | None => w
  end.

Definition cleanupStream (resetBytes : bool) (w : world) : world :=
  let w := destroy_active_stream w in
  let w := destroy_active_socket w in
  let w := set_activeReadStream None w in
  let w := set_activeSocket None w in
  if resetBytes then set_STATE (set_bytesSent 0 (STATE w)) w else w.

(** ** [POST /api/play] *)

(** The handler up to [await inspectWav(filePath)].  [path.join] throws a
    [TypeError] on an argument that is not a string, which the handler's
    [catch] turns into the 500 answer. *)
Definition play_request (req : nat) (fileId : jsval) (w : world)
  : world * list output :=
  if negb (truthy fileId) then
    (w, [Respond req 400 (BError "fileId required")])
  else
    match fileId with
    | JStr id =>
        match files w id with
        | None => (w, [Respond req 404 (BError "file not found")])
        | Some _ => (set_pending (<[req := id]> (pending w)) w, [])
        end
    | _ => (w, [Respond req 500 (BError "failed to play")])
    end.

(** The handler from the assignment of [info] to the call of [connect]. *)
Definition play_resume (req : nat) (r : option wav_header) (w : world)
  : world * list output :=
  match pending w !! req with
  | None => (w, [])
  | Some fileId =>
      let w := set_pending (delete req (pending w)) w in
      let info := inspect_or_empty r in
      let w := set_STATE (set_durationSec
                 (or_num (info_duration info) (durationSec (STATE w)))
                 (STATE w)) w in
      let w := set_STATE (set_byteRate
                 (or_num (info_byteRate info) (byteRate (STATE w)))
                 (STATE w)) w in
      let w := set_STATE (set_currentFile (Some fileId) (STATE w)) w in
      (* Clean up any existing stream *)
      let w := match activeSocket w with
               | Some s => set_activeSocket None (on_socket sk_end s w)
               | None => w
               end in
      let w := match activeReadStream w with
               | Some rd => set_activeReadStream None (on_stream rs_destroy rd w)
               | None => w
               end in
      let s := length (sockets w) in
      let w := set_sockets (sockets w ++ [new_socket fileId req]) w in
      (set_activeSocket (Some s) w, [])
  end.

(** [opts.start]: set only [if (STATE.bytesSent && STATE.bytesSent > 0)];
    a stream without [start] reads from offset 0. *)
Definition start_offset (st : session) : Z :=
  if negb (bytesSent st =? 0) && (0 <? bytesSent st) then bytesSent st else 0.

(** The callback given to [activeSocket.connect], with its captured
    [filePath] and [res].  [pipe] dereferences its destination, so piping
    into [null] throws, and nothing catches inside a callback. *)
Definition connect_callback (filePath : string) (res : nat) (w : world)
  : world * list output :=
  let r := length (streams w) in
  let w := set_streams
             (streams w ++ [{| rs_path := filePath;
                               rs_pos := start_offset (STATE w);
                               rs_destroyed := false; rs_pipe := None |}]) w in
  let w := set_activeReadStream (Some r) w in
  match activeSocket w with
  | None => (set_crashed w, [])
  | Some d =>
      let w := on_stream (rs_set_pipe (Some d)) r w in
      let w := set_STATE (set_playing true (STATE w)) w in
      (w, [Broadcast {| ms_playing := true;
                        ms_currentFile := Some (currentFile (STATE w)) |};
           Respond res 200 BOk])
  end.

(** [activeReadStream.on('data', ...)] followed by the listener that
    [pipe] installs, which writes the chunk to the destination. *)
Definition data_callback (dest : option nat) (chunk : list Byte.byte)
  (w : world) : world :=
  let w := set_STATE (set_bytesSent
             (bytesSent (STATE w) + Z.of_nat (length chunk)) (STATE w)) w in
  match dest with
  | Some d => on_socket (sk_write chunk) d w
  | None => w
  end.

(** [activeReadStream.on('end', ...)] *)
Definition end_callback (w : world) : world * list output :=
  let w := set_STATE (set_playing false (STATE w)) w in
  let w := set_STATE (set_bytesSent 0 (STATE w)) w in
  let w := cleanupStream false w in
  (w, [Broadcast status_stopped]).

(** [activeReadStream.on('error', ...)], [activeSocket.on('error', ...)] and
    [activeSocket.on('close', ...)] have the same body. *)
Definition failure_callback (w : world) : world * list output :=
  let w := cleanupStream false w in
  (w, [Broadcast status_stopped]).

(** ** [POST /api/pause] *)

Definition api_pause (req : nat) (w : world) : world * list output :=
  let w := destroy_active_stream w in
  let w := end_active_socket w in
  let w := cleanupStream false w in
  let w := set_STATE (set_playing false (STATE w)) w in
  (w, [Broadcast status_stopped; Respond req 200 BOk]).

(** ** [GET /api/stream-status] *)

Definition status_snapshot (st : session) : snapshot :=
  {| sn_playing := playing st;
     sn_currentFileId := currentFile st;
     sn_position :=
       if truthyQ (byteRate st)
       then Qfloor (inject_Z (bytesSent st) / byteRate st)
       else 0;
     sn_duration := or_num (Some (durationSec st)) 0%Q |}.

Definition api_stream_status (req : nat) (w : world) : world * list output :=
  (w, [Respond req 200 (BStatus (status_snapshot (STATE w)))]).

(** ** The event loop *)

Inductive event :=
| EvPlay (req : nat) (fileId : jsval)
| EvInspected (req : nat) (r : option wav_header)
| EvPause (req : nat)
| EvStatus (req : nat)
| EvConnect (s : nat)
| EvSockError (s : nat)
| EvSockClose (s : nat)
| EvData (r : nat) (n : nat)
| EvEnd (r : nat)
| EvReadError (r : nat).

(** The next chunk of at most [n] bytes that stream [rs] reads. *)
Definition read_chunk (w : world) (rs : rstream) (n : nat) : list Byte.byte :=
  match files w (rs_path rs) with
  | Some c => take n (drop (Z.to_nat (rs_pos rs)) c)
  | None => []
  end.

(** A stream is at end of file when its file exists and no byte is left
    at its offset. *)
Definition at_eof (w : world) (rs : rstream) : bool :=
  match files w (rs_path rs) with
  | Some c => Z.of_nat (length c) <=? rs_pos rs
  | None => false
  end.

(** One turn of the event loop.  The runtime delivers
    - [connect] once, to a socket that is connecting and not destroyed
      (also after [end()], which only queues the FIN);
    - [error] to a socket it has just destroyed, and [close] once per socket;
    - [data] and [end] only to a read stream that is not destroyed, [end]
      only at end of file, after which the stream closes itself;
    - nothing once an exception has escaped. *)
Definition step (w : world) (e : event) : world * list output :=
  if crashed w then (w, []) else
  match e with
  | EvPlay req fileId => play_request req fileId w
  | EvInspected req r => play_resume req r w
  | EvPause req => api_pause req w
  | EvStatus req => api_stream_status req w
  | EvConnect s =>
      match sockets w !! s with
      | Some sk =>
          if sk_connecting sk && negb (sk_destroyed sk)
          then connect_callback (sk_filePath sk) (sk_res sk)
                 (on_socket sk_connected s w)
          else (w, [])
      | None => (w, [])
      end
  | EvSockError s =>
      match sockets w !! s with
      | Some sk =>
          if sk_destroyed sk then (w, [])
          else failure_callback (on_socket sk_destroy s w)
      | None => (w, [])
      end
  | EvSockClose s =>
      match sockets w !! s with
      | Some sk =>
          if sk_closed sk then (w, [])
          else failure_callback (on_socket sk_close s w)
      | None => (w, [])
      end
  | EvData r n =>
      match streams w !! r with
      | Some rs =>
          if rs_destroyed rs then (w, [])
          else
            match read_chunk w rs n with
            | [] => (w, [])
            | chunk =>
                (data_callback (rs_pipe rs) chunk
                   (on_stream (rs_advance (Z.of_nat (length chunk))) r w), [])
            end
      | None => (w, [])
      end
  | EvEnd r =>
      match streams w !! r with
      | Some rs =>
          if negb (rs_destroyed rs) && at_eof w rs
          then let '(w', out) := end_callback w in
               (on_stream rs_destroy r w', out)
          else (w, [])
      | None => (w, [])
      end
  | EvReadError r =>
      match streams w !! r with
      | Some rs =>
          if rs_destroyed rs then (w, [])
          else failure_callback (on_stream rs_destroy r w)
      | None => (w, [])
      end
  end.

Fixpoint run (w : world) (es : list event) : world * list output :=
  match es with
  | [] => (w, [])
  | e :: es' =>
      let '(w1, o1) := step w e in
      let '(w2, o2) := run w1 es' in
      (w2, o1 ++ o2)
  end.

(** Observations on a world. *)
Definition stream_open (w : world) (r : nat) : bool :=
  match streams w !! r with
  | Some rs => negb (rs_destroyed rs)
  | None => false
  end.

Definition socket_open (w : world) (s : nat) : bool :=
  match sockets w !! s with
  | Some sk => negb (sk_destroyed sk)
  | None => false
  end.

Definition open_streams (w : world) : list nat :=
  filter (fun r => stream_open w r = true) (seq 0 (length (streams w))).

Definition open_sockets (w : world) : list nat :=
  filter (fun s => socket_open w s = true) (seq 0 (length (sockets w))).

Definition written (w : world) (s : nat) : list Byte.byte :=
  match sockets w !! s with
  | Some sk => sk_written sk
  | None => []
  end.

Definition responses (req : nat) (out : list output) : list (nat * body) :=
  omap (fun o => match o with
                 | Respond r c b => if Nat.eqb r req then Some (c, b) else None
                 | Broadcast _ => None
                 end) out.

(** ** A small upload directory and the sessions used as examples *)

Definition demo_files (f : string) : option (list Byte.byte) :=
  if String.eqb f "a.wav" then
    Some [Byte.x01; Byte.x02; Byte.x03; Byte.x04;
          Byte.x05; Byte.x06; Byte.x07; Byte.x08]
  else if String.eqb f "b.wav" then
    Some [Byte.x11; Byte.x12; Byte.x13; Byte.x14; Byte.x15; Byte.x16]
  else if String.eqb f "empty.wav" then Some []
  else None.

(** [a.wav] is played for three bytes and paused; then [b.wav] is played. *)
Definition switch_file_trace : list event :=
  [EvPlay 1 (JStr "a.wav"); EvInspected 1 None; EvConnect 0; EvData 0 3;
   EvPause 2;
   EvPlay 3 (JStr "b.wav"); EvInspected 3 None; EvConnect 1].

(** A second play request arrives while the socket of the first one is
    still connecting; both connections are then established. *)
Definition overlapping_plays_trace : list event :=
  [EvPlay 1 (JStr "a.wav"); EvInspected 1 None;
   EvPlay 2 (JStr "b.wav"); EvInspected 2 None;
   EvConnect 0; EvConnect 1].

(** [a.wav] has been streamed to its last byte; [end] is due on stream 0. *)
Definition streamed_to_eof : world :=
  fst (run (world0 demo_files)
         [EvPlay 1 (JStr "a.wav"); EvInspected 1 None; EvConnect 0;
          EvData 0 5; EvData 0 5]).

(** The zero-length file right after its connection is established. *)
Definition empty_file_connected : world :=
  fst (run (world0 demo_files)
         [EvPlay 1 (JStr "empty.wav"); EvInspected 1 None; EvConnect 0]).

(** [a.wav] paused after three bytes. *)
Definition paused_after_three : world :=
  fst (run (world0 demo_files)
         [EvPlay 1 (JStr "a.wav"); EvInspected 1 None; EvConnect 0;
          EvData 0 3; EvPause 2]).

(** ** Two statements of the specification, as it words them *)

(** Natural completion publishing an event that names the completed file. *)
Definition completion_names_file (w : world) (r : nat) : Prop :=
  let w' := fst (step w (EvEnd r)) in
  let out := snd (step w (EvEnd r)) in
  playing (STATE w') = false ∧ bytesSent (STATE w') = 0 ∧
  activeReadStream w' = None ∧ activeSocket w' = None ∧
  ∃ m, In (Broadcast m) out ∧ ms_playing m = false ∧
       ms_currentFile m = Some (currentFile (STATE w)).

(** A play whose connection fails: an error answer to the caller and the
    session as it was before the call. *)
Definition connect_failure_restores (w : world) (req : nat) (id : string)
  (h : option wav_header) : Prop :=
  let tr := [EvPlay req (JStr id); EvInspected req h;
             EvSockError (length (sockets w))] in
  let w' := fst (run w tr) in
  let out := snd (run w tr) in
  (∃ code msg, In (Respond req code (BError msg)) out) ∧
  playing (STATE w') = false ∧
  bytesSent (STATE w') = bytesSent (STATE w) ∧
  STATE w' = STATE w.

(** ** The state of a session that is streaming

    [streaming w f c r s base j]: in [w] the current read stream [r] reads
    file [f], of content [c], and stands at offset [j]; it is piped into the
    current socket [s], which is writable and has been handed the bytes of
    [c] from offset [base] up to [j]; [STATE.bytesSent] is [j]. *)
Definition streaming (w : world) (f : string) (c : list Byte.byte)
  (r s : nat) (base j : nat) : Prop :=
  crashed w = false ∧
  files w f = Some c ∧
  activeReadStream w = Some r ∧
  activeSocket w = Some s ∧
  streams w !! r = Some {| rs_path := f; rs_pos := Z.of_nat j;
                           rs_destroyed := false; rs_pipe := Some s |} ∧
  (∃ sk, sockets w !! s = Some sk ∧ sk_ended sk = false ∧
         sk_destroyed sk = false ∧
         sk_written sk = take (j - base) (drop base c)) ∧
  bytesSent (STATE w) = Z.of_nat j ∧
  (base ≤ j ≤ length c)%nat.

(** What a turn of the loop leaves alone when it only moves data through
    socket [s]. *)
Definition same_but_socket (s : nat) (w w' : world) : Prop :=
  length (sockets w') = length (sockets w) ∧
  length (streams w') = length (streams w) ∧
  (∀ i, i ≠ s → sockets w' !! i = sockets w !! i) ∧
  playing (STATE w') = playing (STATE w) ∧
  currentFile (STATE w') = currentFile (STATE w).

(** Nothing is current and [STATE.bytesSent] is [j]. *)
Definition idle_at (w : world) (j : nat) : Prop :=
  crashed w = false ∧ activeSocket w = None ∧ activeReadStream w = None ∧
  bytesSent (STATE w) = Z.of_nat j.

(** A socket on which neither [end()] nor [destroy()] has been called. *)
Definition sk_live (sk : socket) : bool :=
  negb (sk_ended sk) && negb (sk_destroyed sk).

(** Every socket but the current one has been ended or destroyed. *)
Definition spare_sockets_closed (w : world) : Prop :=
  ∀ i sk, sockets w !! i = Some sk → sk_live sk = true →
          activeSocket w = Some i.

(** ** What reaches the sink

    [write] hands a chunk to the socket, which queues it; the runtime
    passes the queued bytes on to the connection later, in order, as the
    connection takes them, and [destroy()] drops what is still queued.
    [passed] counts, for each socket, how many of the bytes of [sk_written]
    have been passed on. *)
Record wire := Wire {
  relay : world;
  passed : gmap nat nat
}.

Inductive wire_event :=
| Relay (e : event)
| Drain (s : nat) (n : nat).

Definition passed_of (x : wire) (s : nat) : nat :=
  default 0%nat (passed x !! s).

(** [Drain s n]: socket [s], connected and not destroyed, passes on up to
    [n] more of its queued bytes. *)
Definition wire_step (x : wire) (e : wire_event) : wire :=
  match e with
  | Relay e => {| relay := fst (step (relay x) e); passed := passed x |}
  | Drain s n =>
      match sockets (relay x) !! s with
      | Some sk =>
          if sk_destroyed sk || sk_connecting sk then x
          else
            {| relay := relay x;
               passed := <[s := Nat.min (passed_of x s + n)
                                   (length (sk_written sk))]> (passed x) |}
      | None => x
      end
  end.

Definition wire_run (x : wire) (es : list wire_event) : wire :=
  foldl wire_step x es.

(** The bytes the sink has been sent over socket [s]. *)
Definition received (x : wire) (s : nat) : list Byte.byte :=
  take (passed_of x s) (written (relay x) s).

Definition wire0 (fs : string -> option (list Byte.byte)) : wire :=
  {| relay := world0 fs; passed := ∅ |}.

(** [a.wav] is played; three bytes have been read and written when the
    pause arrives, before the socket has passed them on.  The file is then
    played again to its end, and all that the second socket was given is
    passed on. *)
Definition pause_before_drain_trace : list wire_event :=
  map Relay [EvPlay 1 (JStr "a.wav"); EvInspected 1 None; EvConnect 0;
             EvData 0 3; EvPause 2]
  ++ [Drain 0 3]
  ++ map Relay [EvPlay 3 (JStr "a.wav"); EvInspected 3 None; EvConnect 1;
                EvData 1 100]
  ++ [Drain 1 100; Relay (EvEnd 1)].

(** [a.wav] is played without a pause; [end] comes before the socket has
    passed on the last chunk. *)
Definition end_before_drain_trace : list wire_event :=
  map Relay [EvPlay 1 (JStr "a.wav"); EvInspected 1 None; EvConnect 0;
             EvData 0 5; EvData 0 5]
  ++ [Drain 0 5; Relay (EvEnd 0); Drain 0 5].

(** ** Further invariants of the relay *)

(** The byte counter and every read offset are natural numbers. *)
Definition offsets_nonneg (w : world) : Prop :=
  0 <= bytesSent (STATE w) ∧
  ∀ r rs, streams w !! r = Some rs → 0 <= rs_pos rs.

(** Once a socket exists, and whenever [playing] is set, [currentFile]
    holds a file id. *)
Definition file_named (w : world) : Prop :=
  (sockets w ≠ [] → is_Some (currentFile (STATE w))) ∧
  (playing (STATE w) = true → is_Some (currentFile (STATE w))).

(** The two shapes of status message the relay broadcasts: a start names
    its file, a stop has no [currentFile] key. *)
Definition status_well_formed (m : status_msg) : Prop :=
  if ms_playing m
  then ∃ id, ms_currentFile m = Some (Some id)
  else ms_currentFile m = None.

(** ** Strings as the file handlers see them

    A JavaScript string is a sequence of UTF-16 code units; the regular
    expressions of [server.js] have no [u] flag and work unit by unit. *)
Abbreviation jsstring := (list N).

(** The code units of a literal. *)
Definition units (s : string) : jsstring :=
  map Ascii.N_of_ascii (list_ascii_of_string s).

(** [`${n}`] for a non-negative integer [n] below [1e21], as [Date.now()]
    is: its decimal digits. *)
Fixpoint uint_units (d : Decimal.uint) : jsstring :=
  match d with
  | Decimal.Nil => []
  | Decimal.D0 d => 48%N :: uint_units d
  | Decimal.D1 d => 49%N :: uint_units d
  | Decimal.D2 d => 50%N :: uint_units d
  | Decimal.D3 d => 51%N :: uint_units d
  | Decimal.D4 d => 52%N :: uint_units d
  | Decimal.D5 d => 53%N :: uint_units d
  | Decimal.D6 d => 54%N :: uint_units d
  | Decimal.D7 d => 55%N :: uint_units d
  | Decimal.D8 d => 56%N :: uint_units d
  | Decimal.D9 d => 57%N :: uint_units d
  end.

Definition decimal (n : N) : jsstring := uint_units (N.to_uint n).

Definition is_digit (u : N) : Prop := (48 <= u <= 57)%N.

(** ** [multer.diskStorage]: the name an upload is stored under *)

(** A code unit outside the class [[^a-zA-Z0-9_.-]]. *)
Definition safe_unit (u : N) : bool :=
  ((97 <=? u) && (u <=? 122) || (65 <=? u) && (u <=? 90)
   || (48 <=? u) && (u <=? 57)
   || (u =? 95) || (u =? 46) || (u =? 45))%N.

(** [file.originalname.replace(/[^a-zA-Z0-9_.-]/g, '_')] *)
Definition sanitize (originalname : jsstring) : jsstring :=
  map (fun u => if safe_unit u then u else 95%N) originalname.

(** [`${Date.now()}_${safe}`] *)
Definition filename (now : N) (originalname : jsstring) : jsstring :=
  decimal now ++ [95%N] ++ sanitize originalname.

(** ** [GET /api/files] *)

(** [f.match(/\.wav$/i)]: the last four code units are a dot and the
    letters w, a, v in either case. *)
Definition wav_units (dot w a v : N) : bool :=
  ((dot =? 46) && ((w =? 119) || (w =? 87))
   && ((a =? 97) || (a =? 65)) && ((v =? 118) || (v =? 86)))%N.

Definition is_wav (f : jsstring) : bool :=
  match rev f with
  | v :: a :: w :: dot :: _ => wav_units dot w a v
  | _ => false
  end.

Record file_entry := FileEntry {
  fe_id : jsstring;
  fe_name : jsstring;
  fe_duration : Q
}.

Inductive files_response :=
| FilesOk (files : list file_entry)
| FilesError (code : nat) (msg : string).

(** The body of the loop over [wavFiles]: [inspect f] is the outcome of
    [wavInfo.infoByFilename] on the file, [None] when it fails. *)
Definition list_entry (inspect : jsstring → option wav_header)
  (f : jsstring) : file_entry :=
  {| fe_id := f; fe_name := f;
     fe_duration := match inspect f with
                    | Some h => or_num (info_duration (inspectWav h)) 0%Q
                    | None => 0%Q
                    end |}.

(** The handler.  [readdir] is the result of [fs.readdirSync(UPLOAD_DIR)],
    [None] when it throws; [sort] stands for
    [out.sort((a,b) => b.id.localeCompare(a.id))], whose order is that of
    the runtime's locale. *)
Definition api_files (sort : list file_entry → list file_entry)
  (readdir : option (list jsstring))
  (inspect : jsstring → option wav_header) : files_response :=
  match readdir with
  | None => FilesError 500 "failed to list files"
  | Some files =>
      let wavFiles := filter (fun f => is_wav f = true) files in
      FilesOk (sort (map (list_entry inspect) wavFiles))
  end.

(** ** [POST /api/upload-audio] *)

Inductive ws_note := FilesUpdated.

Inductive upload_response :=
| UploadOk (id name : jsstring) (duration : Q)
| UploadError (code : nat) (msg : string).

(** The handler.  [file] is [None] when the request has no [file] part;
    otherwise it is the original name, and the stored name
    [req.file.filename] is the one [filename] gave at time [now]. *)
Definition api_upload_audio (now : N) (file : option jsstring)
  (inspect : jsstring → option wav_header)
  : upload_response * list ws_note :=
  match file with
  | None => (UploadError 400 "no file uploaded", [])
  | Some originalname =>
      let saved := filename now originalname in
      let duration :=
        match inspect saved with
        | Some h => or_num (info_duration (inspectWav h)) 0%Q
        | None => 0%Q
        end in
      (UploadOk saved originalname duration, [FilesUpdated])
  end.

(** ** The client: [humanTime] *)

(** [s.padStart(2, "0")] *)
Definition pad2 (s : jsstring) : jsstring :=
  replicate (2 - length s) 48%N ++ s.

(** [z.toString()] for an integer [z] of magnitude below [1e21]; from
    there on the code's text is in exponent form. *)
Definition js_int (z : Z) : jsstring :=
  if z <? 0 then 45%N :: decimal (Z.to_N (- z)) else decimal (Z.to_N z).

(** The integer part of a number, towards zero. *)
Definition Qtrunc (q : Q) : Z := Z.quot (Qnum q) (Zpos (Qden q)).

(** [a % b]: the remainder has the sign of [a]. *)
Definition js_rem (a b : Q) : Q := (a - b * inject_Z (Qtrunc (a / b)))%Q.

(** [humanTime(s)]; [None] stands for the values with [!s && s !== 0]:
    [undefined], [null] and [NaN].  The code computes on doubles.  For a
    double [s] with [0 <= s < 2^52] its results are the exact ones taken
    here: [s % 60] is exact; [60 * k] is a double for every [k] up to
    [s / 60 + 1], and a double below [60 * k] is at least [60 * k * 2^-53]
    below it, which puts [s / 60] more than half a unit in the last place
    below [k], so the rounded quotient has the floor of the exact one; and
    an integer below [2^53] prints as its decimal digits.  Beyond that
    range the doubles lose digits and the definition no longer follows
    them. *)
Definition humanTime (s : option Q) : jsstring :=
  match s with
  | None => units "--:--"
  | Some q =>
      let m := pad2 (js_int (Qfloor (q / 60))) in
      let sec := pad2 (js_int (Qfloor (js_rem q 60))) in
      m ++ [58%N] ++ sec
  end.

(** * Properties *)

(** ** Bookkeeping lemmas *)

Lemma run_app w es1 es2 :
  run w (es1 ++ es2) =
  (fst (run (fst (run w es1)) es2),
   snd (run w es1) ++ snd (run (fst (run w es1)) es2)).
Proof.
  revert w. induction es1 as [|e es1 IH]; intros w; simpl.
  - by destruct (run w es2).
  - destruct (step w e) as [w1 o1]. rewrite IH.
    destruct (run w1 es1) as [w2 o2]. simpl. by rewrite app_assoc.
Qed.

Lemma run_cons w e es :
  run w (e :: es) =
  (fst (run (fst (step w e)) es),
   snd (step w e) ++ snd (run (fst (step w e)) es)).
Proof.
  simpl. destruct (step w e) as [w1 o1]. simpl. by destruct (run w1 es).
Qed.

Lemma truthy_JStr id : id ≠ EmptyString → truthy (JStr id) = true.
Proof.
  intros Hne. simpl.
  destruct (String.eqb_spec id EmptyString); [contradiction | done].
Qed.

Lemma stream_open_alter_destroy w r (l : list rstream) :
  streams w = alter rs_destroy r l → stream_open w r = false.
Proof.
  intros E. unfold stream_open. rewrite E, list_lookup_alter_eq.
  by destruct (l !! r).
Qed.

Lemma socket_open_alter_destroy w s (l : list socket) :
  sockets w = alter sk_destroy s l → socket_open w s = false.
Proof.
  intros E. unfold socket_open. rewrite E, list_lookup_alter_eq.
  by destruct (l !! s).
Qed.

(** ** Validation of the play request *)

(** C10: a play request whose [fileId] is absent, empty or otherwise falsy
    is answered 400 'fileId required'; nothing is resolved or inspected (no
    handler is left suspended) and the whole world, session, socket and
    read stream included, is as before. *)
Theorem play_without_fileId_rejected (w : world) (req : nat) (v : jsval) :
  crashed w = false →
  truthy v = false →
  step w (EvPlay req v) = (w, [Respond req 400 (BError "fileId required")]).
Proof.
  intros Hc Hv. unfold step, play_request. by rewrite Hc, Hv.
Qed.

Lemma play_without_fileId_rejected_witness :
  step (world0 demo_files) (EvPlay 4 JUndefined)
    = (world0 demo_files, [Respond 4 400 (BError "fileId required")]) ∧
  step paused_after_three (EvPlay 5 (JStr EmptyString))
    = (paused_after_three, [Respond 5 400 (BError "fileId required")]).
Proof.
  split.
  - apply (play_without_fileId_rejected (world0 demo_files) 4 JUndefined);
      reflexivity.
  - apply (play_without_fileId_rejected paused_after_three 5
             (JStr EmptyString)); reflexivity.
Defined.

(** C8: a play request for a file id that resolves to no file is answered
    404 'file not found' and leaves the world, hence [STATE], unchanged. *)
Theorem play_missing_file_not_found (w : world) (req : nat) (id : string) :
  crashed w = false →
  id ≠ EmptyString →
  files w id = None →
  step w (EvPlay req (JStr id)) =
    (w, [Respond req 404 (BError "file not found")]).
Proof.
  intros Hc Hne Hf. unfold step, play_request.
  by rewrite Hc, (truthy_JStr id Hne), Hf.
Qed.

Lemma play_missing_file_not_found_witness :
  step paused_after_three (EvPlay 9 (JStr "missing.wav")) =
    (paused_after_three, [Respond 9 404 (BError "file not found")]).
Proof.
  apply (play_missing_file_not_found paused_after_three 9 "missing.wav");
    [reflexivity | discriminate | reflexivity].
Defined.

(** ** The status query *)

Lemma truthyQ_false q : truthyQ q = false ↔ (q == 0)%Q.
Proof.
  unfold truthyQ. rewrite negb_false_iff. apply Qeq_bool_iff.
Qed.

(** C7: the status query answers with the four fields
    [playing], [currentFileId], [position], [duration] and changes nothing;
    [position] is 0 when [byteRate] is zero and otherwise the floor of
    [bytesSent / byteRate]: the integer [p] with
    [p <= bytesSent / byteRate < p + 1], which for an integer rate is the
    quotient of the integer division. *)
Theorem stream_status_snapshot (w : world) (req : nat) :
  crashed w = false →
  ∃ snap,
    step w (EvStatus req) = (w, [Respond req 200 (BStatus snap)]) ∧
    sn_playing snap = playing (STATE w) ∧
    sn_currentFileId snap = currentFile (STATE w) ∧
    (sn_duration snap == durationSec (STATE w))%Q ∧
    ((byteRate (STATE w) == 0)%Q → sn_position snap = 0) ∧
    (¬ (byteRate (STATE w) == 0)%Q →
       (inject_Z (sn_position snap)
          <= inject_Z (bytesSent (STATE w)) / byteRate (STATE w))%Q ∧
       (inject_Z (bytesSent (STATE w)) / byteRate (STATE w)
          < inject_Z (sn_position snap + 1))%Q) ∧
    (∀ b : Z, b ≠ 0 → (byteRate (STATE w) == inject_Z b)%Q →
       sn_position snap = bytesSent (STATE w) / b).
Proof.
  intros Hc. exists (status_snapshot (STATE w)).
  unfold step, api_stream_status. rewrite Hc.
  repeat split; cbn [status_snapshot sn_position sn_duration].
  - unfold or_num. destruct (truthyQ (durationSec (STATE w))) eqn:E;
      [reflexivity |]. symmetry. by apply truthyQ_false.
  - intros H0. apply truthyQ_false in H0. by rewrite H0.
  - destruct (truthyQ (byteRate (STATE w))) eqn:E.
    + apply Qfloor_le.
    + apply truthyQ_false in E. contradiction.
  - destruct (truthyQ (byteRate (STATE w))) eqn:E.
    + apply Qlt_floor.
    + apply truthyQ_false in E. contradiction.
  - intros b Hb Hr.
    destruct (truthyQ (byteRate (STATE w))) eqn:E.
    + rewrite Hr. symmetry. apply Zdiv_Qdiv.
    + apply truthyQ_false in E. rewrite Hr in E. exfalso. apply Hb.
      unfold Qeq in E. simpl in E. lia.
Qed.

(** [a.wav] with a header of 1 sample per second, 16 bits, one channel
    (2 bytes per second), five bytes into the file. *)
Lemma stream_status_snapshot_witness :
  let w := fst (run (world0 demo_files)
                  [EvPlay 1 (JStr "a.wav");
                   EvInspected 1 (Some (WavHeader (Some 1%Q) (Some 16%Q)
                                          (Some 1%Q) (Some 4%Q)));
                   EvConnect 0; EvData 0 5]) in
  ∃ snap,
    step w (EvStatus 2) = (w, [Respond 2 200 (BStatus snap)]) ∧
    sn_playing snap = true ∧
    sn_currentFileId snap = Some "a.wav" ∧
    sn_position snap = 2.
Proof.
  intros w.
  destruct (stream_status_snapshot w 2 eq_refl)
    as (snap & Hs & Hp & Hf & _ & _ & _ & Hdiv).
  exists snap. repeat split; [exact Hs | exact Hp | exact Hf |].
  rewrite (Hdiv 2); [reflexivity | discriminate | reflexivity].
Defined.

(** ** What each handler does to the world, field by field *)

Lemma set_playing_same st : playing st = false → set_playing false st = st.
Proof. destruct st; simpl; intros ->; reflexivity. Qed.

Lemma alter_last {A} (f : A → A) (l : list A) (x : A) :
  alter f (length l) (l ++ [x]) = l ++ [f x].
Proof.
  replace (length l) with (length l + 0)%nat by lia.
  by rewrite alter_app_r.
Qed.

Lemma lookup_last {A} (l : list A) (x : A) : (l ++ [x]) !! length l = Some x.
Proof. by rewrite list_lookup_middle. Qed.

Lemma cleanupStream_fields w :
  let w' := cleanupStream false w in
  STATE w' = STATE w ∧ activeSocket w' = None ∧ activeReadStream w' = None ∧
  sockets w' = match activeSocket w with
               | Some s => alter sk_destroy s (sockets w)
               | None => sockets w
               end ∧
  streams w' = match activeReadStream w with
               | Some r => alter rs_destroy r (streams w)
               | None => streams w
               end ∧
  pending w' = pending w ∧ files w' = files w ∧ crashed w' = crashed w.
Proof.
  unfold cleanupStream, destroy_active_stream, destroy_active_socket.
  destruct (activeReadStream w) as [r|] eqn:Er,
           (activeSocket w) as [s|] eqn:Es;
    cbn; rewrite ?Es, ?Er; cbn; repeat split; eauto.
Qed.

Lemma play_request_suspends w req id c :
  crashed w = false → id ≠ EmptyString → files w id = Some c →
  step w (EvPlay req (JStr id)) =
    (set_pending (<[req := id]> (pending w)) w, []).
Proof.
  intros Hc Hne Hf. unfold step, play_request.
  by rewrite Hc, (truthy_JStr id Hne), Hf.
Qed.

(** The play handler once the inspection has settled. *)
Lemma play_resume_fields w req id h :
  crashed w = false → pending w !! req = Some id →
  ∃ w1,
    step w (EvInspected req h) = (w1, []) ∧
    STATE w1 =
      {| playing := playing (STATE w);
         currentFile := Some id;
         bytesSent := bytesSent (STATE w);
         durationSec := or_num (info_duration (inspect_or_empty h))
                          (durationSec (STATE w));
         byteRate := or_num (info_byteRate (inspect_or_empty h))
                       (byteRate (STATE w)) |} ∧
    activeSocket w1 = Some (length (sockets w)) ∧
    activeReadStream w1 = None ∧
    sockets w1 = match activeSocket w with
                 | Some s => alter sk_end s (sockets w)
                 | None => sockets w
                 end ++ [new_socket id req] ∧
    streams w1 = match activeReadStream w with
                 | Some r => alter rs_destroy r (streams w)
                 | None => streams w
                 end ∧
    files w1 = files w ∧ crashed w1 = false.
Proof.
  intros Hc Hp. unfold step. rewrite Hc. unfold play_resume. rewrite Hp.
  destruct w as [st [s|] [r|] sks rds pd fs cr]; cbn in *;
    rewrite ?length_alter; eexists; repeat split; eauto.
Qed.

(** The two turns of a play request that passes validation. *)
Lemma play_fields w req id c h :
  crashed w = false → id ≠ EmptyString → files w id = Some c →
  ∃ w1,
    run w [EvPlay req (JStr id); EvInspected req h] = (w1, []) ∧
    STATE w1 =
      {| playing := playing (STATE w);
         currentFile := Some id;
         bytesSent := bytesSent (STATE w);
         durationSec := or_num (info_duration (inspect_or_empty h))
                          (durationSec (STATE w));
         byteRate := or_num (info_byteRate (inspect_or_empty h))
                       (byteRate (STATE w)) |} ∧
    activeSocket w1 = Some (length (sockets w)) ∧
    activeReadStream w1 = None ∧
    sockets w1 = match activeSocket w with
                 | Some s => alter sk_end s (sockets w)
                 | None => sockets w
                 end ++ [new_socket id req] ∧
    streams w1 = match activeReadStream w with
                 | Some r => alter rs_destroy r (streams w)
                 | None => streams w
                 end ∧
    files w1 = files w ∧ crashed w1 = false.
Proof.
  intros Hc Hne Hf.
  destruct (play_resume_fields (set_pending (<[req := id]> (pending w)) w)
              req id h Hc) as (w1 & Hstep & Hrest).
  { cbn. apply lookup_insert_eq. }
  exists w1. split; [|exact Hrest].
  cbn [run]. rewrite (play_request_suspends w req id c Hc Hne Hf).
  by rewrite Hstep.
Qed.

(** The connect callback when a socket is current. *)
Lemma connect_fields w s sk d :
  crashed w = false → sockets w !! s = Some sk →
  sk_connecting sk = true → sk_destroyed sk = false →
  activeSocket w = Some d →
  ∃ w2,
    step w (EvConnect s) =
      (w2, [Broadcast {| ms_playing := true;
                         ms_currentFile := Some (currentFile (STATE w)) |};
            Respond (sk_res sk) 200 BOk]) ∧
    STATE w2 = set_playing true (STATE w) ∧
    activeSocket w2 = Some d ∧
    activeReadStream w2 = Some (length (streams w)) ∧
    sockets w2 = alter sk_connected s (sockets w) ∧
    streams w2 = streams w ++
                 [{| rs_path := sk_filePath sk;
                     rs_pos := start_offset (STATE w);
                     rs_destroyed := false; rs_pipe := Some d |}] ∧
    files w2 = files w ∧ crashed w2 = false.
Proof.
  intros Hc Hs Hcon Hd Ha. unfold step. rewrite Hc, Hs, Hcon, Hd.
  cbn [andb negb]. unfold connect_callback.
  destruct w as [st a r sks rds pd fs cr]. cbn in Ha. subst a.
  unfold on_stream, on_socket. cbn -[alter]. rewrite alter_last.
  eexists; repeat split; eauto.
Qed.

(** The pause handler. *)
Lemma pause_fields w req :
  crashed w = false →
  ∃ w',
    step w (EvPause req) =
      (w', [Broadcast status_stopped; Respond req 200 BOk]) ∧
    STATE w' = set_playing false (STATE w) ∧
    activeSocket w' = None ∧ activeReadStream w' = None ∧
    sockets w' = match activeSocket w with
                 | Some s => alter sk_destroy s (alter sk_end s (sockets w))
                 | None => sockets w
                 end ∧
    streams w' = match activeReadStream w with
                 | Some r => alter rs_destroy r (alter rs_destroy r (streams w))
                 | None => streams w
                 end ∧
    files w' = files w ∧ crashed w' = false.
Proof.
  intros Hc. unfold step. rewrite Hc. unfold api_pause.
  unfold cleanupStream, destroy_active_stream, destroy_active_socket,
    end_active_socket, on_stream, on_socket.
  destruct w as [st [s|] [r|] sks rds pd fs cr]; cbn -[alter] in *;
    eexists; repeat split; eauto.
Qed.

(** A socket error. *)
Lemma sock_error_fields w s sk :
  crashed w = false → sockets w !! s = Some sk → sk_destroyed sk = false →
  ∃ w',
    step w (EvSockError s) = (w', [Broadcast status_stopped]) ∧
    STATE w' = STATE w ∧
    activeSocket w' = None ∧ activeReadStream w' = None ∧
    sockets w' = match activeSocket w with
                 | Some a => alter sk_destroy a (alter sk_destroy s (sockets w))
                 | None => alter sk_destroy s (sockets w)
                 end ∧
    streams w' = match activeReadStream w with
                 | Some r => alter rs_destroy r (streams w)
                 | None => streams w
                 end ∧
    files w' = files w ∧ crashed w' = false.
Proof.
  intros Hc Hs Hd. unfold step. rewrite Hc, Hs, Hd.
  unfold failure_callback, cleanupStream, destroy_active_stream,
    destroy_active_socket, on_stream, on_socket.
  destruct w as [st [a|] [r|] sks rds pd fs cr]; cbn -[alter] in *;
    eexists; repeat split; eauto.
Qed.

Lemma data_on_closed_stream w r n :
  stream_open w r = false → step w (EvData r n) = (w, []).
Proof.
  unfold stream_open, step. intros H. destruct (crashed w); [done|].
  destruct (streams w !! r) as [rs|]; [|done].
  by destruct (rs_destroyed rs).
Qed.

(** ** Pause *)

(** C5: every pause is answered [{ok: true}].  It destroys the current read
    stream (after which no further chunk is copied), ends and destroys the
    current socket, clears both variables, and sets [playing] to false;
    [bytesSent], [currentFile] and the other fields of [STATE] keep their
    values, so a pause while not playing leaves [STATE] as it was. *)
Theorem pause_retains_offset (w : world) (req : nat) :
  crashed w = false →
  let w' := fst (step w (EvPause req)) in
  snd (step w (EvPause req)) = [Broadcast status_stopped; Respond req 200 BOk] ∧
  STATE w' = set_playing false (STATE w) ∧
  playing (STATE w') = false ∧
  bytesSent (STATE w') = bytesSent (STATE w) ∧
  currentFile (STATE w') = currentFile (STATE w) ∧
  activeReadStream w' = None ∧ activeSocket w' = None ∧
  match activeReadStream w with
  | Some r => stream_open w' r = false ∧
              ∀ n, step w' (EvData r n) = (w', [])
  | None => streams w' = streams w
  end ∧
  match activeSocket w with
  | Some s => socket_open w' s = false
  | None => sockets w' = sockets w
  end ∧
  (playing (STATE w) = false → STATE w' = STATE w).
Proof.
  intros Hc w'. subst w'.
  destruct (pause_fields w req Hc)
    as (w' & -> & Hst & Has & Har & Hsk & Hrs & Hf & Hc').
  cbn [fst snd]. rewrite Hst. repeat split; try done.
  - destruct (activeReadStream w) as [r|]; [|done].
    assert (Ho : stream_open w' r = false)
      by (eapply stream_open_alter_destroy; eauto).
    split; [done|]. intros n. by apply data_on_closed_stream.
  - destruct (activeSocket w) as [s|]; [|done].
    eapply socket_open_alter_destroy; eauto.
  - apply set_playing_same.
Qed.

Lemma pause_retains_offset_witness :
  let w := streamed_to_eof in
  bytesSent (STATE (fst (step w (EvPause 7)))) = 8 ∧
  STATE (fst (step paused_after_three (EvPause 8))) = STATE paused_after_three.
Proof.
  split.
  - rewrite (proj1 (proj2 (proj2 (proj2
               (pause_retains_offset streamed_to_eof 7 eq_refl))))).
    reflexivity.
  - apply (pause_retains_offset paused_after_three 8 eq_refl). reflexivity.
Defined.

(** ** Natural completion *)

Lemma end_fields w r rs :
  crashed w = false → streams w !! r = Some rs →
  rs_destroyed rs = false → at_eof w rs = true →
  ∃ w',
    step w (EvEnd r) = (w', [Broadcast status_stopped]) ∧
    STATE w' = set_bytesSent 0 (set_playing false (STATE w)) ∧
    activeSocket w' = None ∧ activeReadStream w' = None ∧
    sockets w' = match activeSocket w with
                 | Some a => alter sk_destroy a (sockets w)
                 | None => sockets w
                 end ∧
    streams w' = alter rs_destroy r
                   match activeReadStream w with
                   | Some a => alter rs_destroy a (streams w)
                   | None => streams w
                   end ∧
    files w' = files w ∧ crashed w' = false.
Proof.
  intros Hc Hs Hd He. unfold step. rewrite Hc, Hs, Hd, He.
  unfold end_callback, cleanupStream, destroy_active_stream,
    destroy_active_socket, on_stream, on_socket.
  destruct w as [st [a|] [x|] sks rds pd fs cr]; cbn -[alter] in *;
    eexists; repeat split; eauto.
Qed.

Lemma empty_file_at_eof w rs :
  files w (rs_path rs) = Some [] → 0 <= rs_pos rs → at_eof w rs = true.
Proof.
  intros Hf Hp. unfold at_eof. rewrite Hf. cbn. by apply Z.leb_le.
Qed.

Lemma start_offset_nonneg st : 0 <= start_offset st.
Proof.
  unfold start_offset.
  destruct (0 <? bytesSent st) eqn:E; rewrite ?andb_false_r; [|lia].
  apply Z.ltb_lt in E. destruct (negb _); cbn; lia.
Qed.

Lemma start_offset_bytesSent st :
  0 <= bytesSent st → start_offset st = bytesSent st.
Proof.
  intros H. unfold start_offset.
  destruct (bytesSent st =? 0) eqn:E0; cbn.
  - apply Z.eqb_eq in E0. lia.
  - destruct (0 <? bytesSent st) eqn:E; [done|].
    apply Z.ltb_ge in E. apply Z.eqb_neq in E0. lia.
Qed.

(** The completion event of the example session carries no file name. *)
Lemma completion_event_omits_file : ¬ completion_names_file streamed_to_eof 0.
Proof.
  unfold completion_names_file.
  intros (_ & _ & _ & _ & m & Hin & _ & Hf).
  vm_compute in Hin. destruct Hin as [Hin | []].
  injection Hin as <-. discriminate Hf.
Qed.

(** C4, as the code has it: when [end] is delivered to a read stream (open,
    at end of file, whatever the length of the file), the handler destroys
    the current read stream and socket and clears both variables, sets
    [bytesSent] to 0 and [playing] to false, and broadcasts the single event
    [{type: 'status', playing: false}], which has no [currentFile].
    [STATE.currentFile] is left as it was: when the stream that ended was
    reading the current file, that file, the completed one, is still the
    [currentFile] afterwards and the one the status query reports. *)
Theorem natural_completion_resets (w : world) (r : nat) (rs : rstream) :
  crashed w = false →
  streams w !! r = Some rs →
  rs_destroyed rs = false →
  at_eof w rs = true →
  let w' := fst (step w (EvEnd r)) in
  snd (step w (EvEnd r)) = [Broadcast status_stopped] ∧
  ms_currentFile status_stopped = None ∧
  playing (STATE w') = false ∧
  bytesSent (STATE w') = 0 ∧
  currentFile (STATE w') = currentFile (STATE w) ∧
  sn_currentFileId (status_snapshot (STATE w')) = currentFile (STATE w) ∧
  activeReadStream w' = None ∧ activeSocket w' = None ∧
  stream_open w' r = false ∧
  match activeReadStream w with
  | Some a => stream_open w' a = false
  | None => True
  end ∧
  match activeSocket w with
  | Some s => socket_open w' s = false
  | None => True
  end ∧
  (currentFile (STATE w) = Some (rs_path rs) →
   currentFile (STATE w') = Some (rs_path rs) ∧
   sn_currentFileId (status_snapshot (STATE w')) = Some (rs_path rs)).
Proof.
  intros Hc Hs Hd He w'. subst w'.
  destruct (end_fields w r rs Hc Hs Hd He)
    as (w' & -> & Hst & Has & Har & Hsk & Hrs & Hf & Hc').
  cbn [fst snd]. rewrite Hst.
  split; [done|]. split; [done|]. split; [done|]. split; [done|].
  split; [done|]. split; [done|]. split; [done|]. split; [done|].
  split; [|split; [|split]].
  - eapply stream_open_alter_destroy; eauto.
  - destruct (activeReadStream w) as [a|]; [|done].
    unfold stream_open. rewrite Hrs.
    destruct (decide (r = a)) as [->|Hne].
    + rewrite list_lookup_alter_eq.
      by destruct (alter rs_destroy a (streams w) !! a).
    + rewrite list_lookup_alter_ne, list_lookup_alter_eq by done.
      by destruct (streams w !! a).
  - destruct (activeSocket w) as [s|]; [|done].
    eapply socket_open_alter_destroy; eauto.
  - cbn. intros ->. by split.
Qed.

(** The zero-length file: [end] is due as soon as the stream exists, and
    the completed file is the one still named. *)
Lemma natural_completion_resets_witness :
  let w := empty_file_connected in
  let w' := fst (step w (EvEnd 0)) in
  playing (STATE w) = true ∧
  playing (STATE w') = false ∧
  bytesSent (STATE w') = 0 ∧
  currentFile (STATE w') = Some "empty.wav" ∧
  sn_currentFileId (status_snapshot (STATE w')) = Some "empty.wav".
Proof.
  pose proof (natural_completion_resets empty_file_connected 0
                (RStream "empty.wav" 0 false (Some 0%nat))
                eq_refl eq_refl eq_refl eq_refl) as H.
  cbv zeta in H.
  destruct H as (_ & _ & Hp & Hb & _ & _ & _ & _ & _ & _ & _ & Hn).
  destruct (Hn eq_refl) as [Hf Hq].
  split; [reflexivity|]. split; [exact Hp|]. split; [exact Hb|].
  split; [exact Hf | exact Hq].
Defined.

(** ** Play: metadata, connection failure, choice of the start offset *)

(** A play request that passes validation, followed to the established
    connection, whatever the inspection gave and whatever file was current
    before. *)
Lemma play_connect_fields w req id c h :
  crashed w = false → id ≠ EmptyString → files w id = Some c →
  let s := length (sockets w) in
  let r := length (streams w) in
  ∃ w1 w2,
    run w [EvPlay req (JStr id); EvInspected req h] = (w1, []) ∧
    step w1 (EvConnect s) =
      (w2, [Broadcast {| ms_playing := true;
                         ms_currentFile := Some (Some id) |};
            Respond req 200 BOk]) ∧
    STATE w1 =
      {| playing := playing (STATE w);
         currentFile := Some id;
         bytesSent := bytesSent (STATE w);
         durationSec := or_num (info_duration (inspect_or_empty h))
                          (durationSec (STATE w));
         byteRate := or_num (info_byteRate (inspect_or_empty h))
                       (byteRate (STATE w)) |} ∧
    STATE w2 = set_playing true (STATE w1) ∧
    activeSocket w1 = Some s ∧
    sockets w1 !! s = Some (new_socket id req) ∧
    activeReadStream w2 = Some r ∧
    streams w2 !! r = Some {| rs_path := id;
                              rs_pos := start_offset (STATE w);
                              rs_destroyed := false; rs_pipe := Some s |}.
Proof.
  intros Hc Hne Hf s r.
  destruct (play_fields w req id c h Hc Hne Hf)
    as (w1 & E1 & Hst & Has & Har & Hsk & Hrs & Hfs & Hc1).
  assert (Hlook : sockets w1 !! s = Some (new_socket id req)).
  { rewrite Hsk. subst s. destruct (activeSocket w).
    - rewrite <- (length_alter sk_end (sockets w) n). apply lookup_last.
    - apply lookup_last. }
  destruct (connect_fields w1 s _ s Hc1 Hlook eq_refl eq_refl Has)
    as (w2 & E2 & Hst2 & Has2 & Har2 & Hsk2 & Hrs2 & Hfs2 & Hc2).
  exists w1, w2. repeat split; try done.
  - rewrite E2, Hst. done.
  - rewrite Har2, Hrs. subst r. f_equal.
    destruct (activeReadStream w); by rewrite ?length_alter.
  - rewrite Hrs2, Hrs. subst r.
    replace (start_offset (STATE w1)) with (start_offset (STATE w))
      by (by rewrite Hst).
    destruct (activeReadStream w).
    + rewrite <- (length_alter rs_destroy (streams w) n). apply lookup_last.
    + apply lookup_last.
Qed.

(** The play handler has one rule for the start offset, which does not
    look at the file: [bytesSent] is left as it is and the read stream
    starts there, for the file that was current and for any other. *)
Lemma play_never_resets_offset w req id c h :
  crashed w = false → id ≠ EmptyString → files w id = Some c →
  0 <= bytesSent (STATE w) →
  let w2 := fst (run w [EvPlay req (JStr id); EvInspected req h;
                        EvConnect (length (sockets w))]) in
  bytesSent (STATE w2) = bytesSent (STATE w) ∧
  ∃ rs, streams w2 !! length (streams w) = Some rs ∧
        rs_path rs = id ∧ rs_pos rs = bytesSent (STATE w).
Proof.
  intros Hc Hne Hf Hb w2. subst w2.
  destruct (play_connect_fields w req id c h Hc Hne Hf)
    as (w1 & w2 & E1 & E2 & Hst1 & Hst2 & _ & _ & _ & Hrs).
  change [EvPlay req (JStr id); EvInspected req h;
          EvConnect (length (sockets w))]
    with ([EvPlay req (JStr id); EvInspected req h]
            ++ [EvConnect (length (sockets w))]).
  rewrite run_app, E1. cbn [fst snd run]. rewrite E2. cbn [fst].
  split.
  - by rewrite Hst2, Hst1.
  - eexists. split; [exact Hrs|]. split; [done|].
    by apply start_offset_bytesSent.
Qed.

(** C9: when the inspection fails, the play handler goes on: it answers no
    error, leaves [byteRate] and [durationSec] at the values they had
    (zero in a fresh process), selects the file and starts a connection;
    once that connection is established the file is streamed, [playing] is
    true and the request is answered [{ok: true}]. *)
Theorem play_proceeds_when_inspection_fails
  (w : world) (req : nat) (id : string) (c : list Byte.byte) :
  crashed w = false → id ≠ EmptyString → files w id = Some c →
  let s := length (sockets w) in
  let r := length (streams w) in
  let w1 := fst (run w [EvPlay req (JStr id); EvInspected req None]) in
  let w2 := fst (step w1 (EvConnect s)) in
  snd (run w [EvPlay req (JStr id); EvInspected req None]) = [] ∧
  byteRate (STATE w1) = byteRate (STATE w) ∧
  durationSec (STATE w1) = durationSec (STATE w) ∧
  currentFile (STATE w1) = Some id ∧
  activeSocket w1 = Some s ∧
  sockets w1 !! s = Some (new_socket id req) ∧
  snd (step w1 (EvConnect s)) =
    [Broadcast {| ms_playing := true; ms_currentFile := Some (Some id) |};
     Respond req 200 BOk] ∧
  playing (STATE w2) = true ∧
  byteRate (STATE w2) = byteRate (STATE w) ∧
  durationSec (STATE w2) = durationSec (STATE w) ∧
  activeReadStream w2 = Some r ∧
  streams w2 !! r = Some {| rs_path := id;
                            rs_pos := start_offset (STATE w);
                            rs_destroyed := false; rs_pipe := Some s |}.
Proof.
  intros Hc Hne Hf s r w1 w2. subst w1 w2.
  destruct (play_connect_fields w req id c None Hc Hne Hf)
    as (w1 & w2 & -> & E2 & Hst1 & Hst2 & Has & Hsk & Har & Hrs).
  subst s r. cbn [fst snd]. rewrite E2. cbn [fst snd].
  rewrite Hst2, Hst1. cbn. repeat split; done.
Qed.

Lemma play_proceeds_when_inspection_fails_witness :
  let w1 := fst (run (world0 demo_files)
                   [EvPlay 1 (JStr "a.wav"); EvInspected 1 None]) in
  byteRate (STATE w1) = 0%Q ∧
  playing (STATE (fst (step w1 (EvConnect 0)))) = true.
Proof.
  pose proof (play_proceeds_when_inspection_fails (world0 demo_files) 1
                "a.wav" _ eq_refl ltac:(discriminate) eq_refl) as H.
  cbv zeta in H. destruct H as (_ & Hr & _ & _ & _ & _ & _ & Hp & _).
  split; [exact Hr | exact Hp].
Defined.

(** After a failed connection the session is not what it was, and the
    caller has no answer. *)
Lemma connect_failure_changes_session :
  ¬ connect_failure_restores (world0 demo_files) 1 "a.wav" None.
Proof.
  unfold connect_failure_restores. intros (_ & _ & _ & H).
  vm_compute in H. discriminate H.
Qed.

(** C2, as the code has it: when the connection of a play request fails
    (the socket reports an error before it connects) in a session that is
    not playing, [playing] stays false and [bytesSent] keeps its value, the
    socket is destroyed, no read stream is opened, and a stopped status is
    broadcast; [currentFile] is the requested file and [durationSec] and
    [byteRate] are those the inspection gave, as assigned before the
    connection was attempted. *)
Theorem connect_failure_keeps_offset
  (w : world) (req : nat) (id : string) (c : list Byte.byte)
  (h : option wav_header) :
  crashed w = false → id ≠ EmptyString → files w id = Some c →
  playing (STATE w) = false →
  let s := length (sockets w) in
  let tr := [EvPlay req (JStr id); EvInspected req h; EvSockError s] in
  let w' := fst (run w tr) in
  playing (STATE w') = false ∧
  bytesSent (STATE w') = bytesSent (STATE w) ∧
  currentFile (STATE w') = Some id ∧
  durationSec (STATE w') =
    or_num (info_duration (inspect_or_empty h)) (durationSec (STATE w)) ∧
  byteRate (STATE w') =
    or_num (info_byteRate (inspect_or_empty h)) (byteRate (STATE w)) ∧
  activeSocket w' = None ∧ activeReadStream w' = None ∧
  socket_open w' s = false ∧
  length (streams w') = length (streams w) ∧
  In (Broadcast status_stopped) (snd (run w tr)).
Proof.
  intros Hc Hne Hf Hp s tr w'. subst w' tr.
  change [EvPlay req (JStr id); EvInspected req h; EvSockError s]
    with ([EvPlay req (JStr id); EvInspected req h] ++ [EvSockError s]).
  rewrite run_app.
  destruct (play_fields w req id c h Hc Hne Hf)
    as (w1 & -> & Hst & Has & Har & Hsk & Hrs & Hfs & Hc1).
  cbn [fst snd app run].
  assert (Hlook : sockets w1 !! s = Some (new_socket id req)).
  { rewrite Hsk. subst s. destruct (activeSocket w).
    - rewrite <- (length_alter sk_end (sockets w) n). apply lookup_last.
    - apply lookup_last. }
  destruct (sock_error_fields w1 s _ Hc1 Hlook eq_refl)
    as (w2 & -> & Hst2 & Has2 & Har2 & Hsk2 & Hrs2 & Hfs2 & Hc2).
  cbn [fst snd]. rewrite Hst2, Hst. cbn.
  repeat split; try done.
  - eapply socket_open_alter_destroy. rewrite Hsk2, Has. reflexivity.
  - rewrite Hrs2, Har, Hrs. destruct (activeReadStream w);
      by rewrite ?length_alter.
  - by left.
Qed.

(** In that run the only thing the server sends is the broadcast: the
    request is left without an answer. *)
Lemma connect_failure_unanswered
  (w : world) (req : nat) (id : string) (c : list Byte.byte)
  (h : option wav_header) :
  crashed w = false → id ≠ EmptyString → files w id = Some c →
  let tr := [EvPlay req (JStr id); EvInspected req h;
             EvSockError (length (sockets w))] in
  snd (run w tr) = [Broadcast status_stopped] ∧
  responses req (snd (run w tr)) = [].
Proof.
  intros Hc Hne Hf tr. subst tr.
  change [EvPlay req (JStr id); EvInspected req h;
          EvSockError (length (sockets w))]
    with ([EvPlay req (JStr id); EvInspected req h]
            ++ [EvSockError (length (sockets w))]).
  rewrite run_app.
  destruct (play_connect_fields w req id c h Hc Hne Hf)
    as (w1 & _ & E1 & _ & _ & _ & _ & Hlook & _).
  rewrite E1. cbn [fst snd app run].
  assert (Hc1 : crashed w1 = false).
  { destruct (play_fields w req id c h Hc Hne Hf) as (w1' & E1' & H).
    rewrite E1 in E1'. injection E1' as <-. apply H. }
  destruct (sock_error_fields w1 _ _ Hc1 Hlook eq_refl) as (w2 & -> & _).
  done.
Qed.

Lemma connect_failure_keeps_offset_witness :
  let w := paused_after_three in
  let tr := [EvPlay 3 (JStr "b.wav"); EvInspected 3 None; EvSockError 1] in
  bytesSent (STATE w) = 3 ∧
  bytesSent (STATE (fst (run w tr))) = 3 ∧
  playing (STATE (fst (run w tr))) = false ∧
  currentFile (STATE (fst (run w tr))) = Some "b.wav".
Proof.
  pose proof (connect_failure_keeps_offset paused_after_three 3 "b.wav" _ None
                eq_refl ltac:(discriminate) eq_refl eq_refl) as H.
  cbv zeta in H. destruct H as (Hp & Hb & Hf & _).
  split; [reflexivity|]. split; [exact Hb|]. split; [exact Hp | exact Hf].
Defined.

(** C1 at a reachable input: [a.wav] is paused after three bytes and
    [b.wav] is played next.  The handler selects [b.wav] but leaves
    [bytesSent] at 3, so the read stream on [b.wav] is opened with
    [start = 3] and its first three bytes are never sent. *)
Theorem play_other_file_inherits_offset :
  let w0 := paused_after_three in
  let w := fst (run (world0 demo_files) switch_file_trace) in
  currentFile (STATE w0) = Some "a.wav" ∧ bytesSent (STATE w0) = 3 ∧
  currentFile (STATE w) = Some "b.wav" ∧ bytesSent (STATE w) = 3 ∧
  playing (STATE w) = true ∧
  activeReadStream w = Some 1%nat ∧
  streams w !! 1%nat = Some {| rs_path := "b.wav"; rs_pos := 3;
                               rs_destroyed := false;
                               rs_pipe := Some 1%nat |} ∧
  written (fst (run w [EvData 1 100; EvEnd 1])) 1
    = [Byte.x14; Byte.x15; Byte.x16].
Proof. vm_compute. repeat split. Qed.

(** C3 at a reachable input: a second play request is handled while the
    socket of the first is still connecting.  The first socket is only
    ended, so its connect callback still runs and opens a read stream that
    nothing destroys when the second callback opens its own: two read
    streams are open at once, both piped into the second socket, and two
    sockets are undestroyed. *)
Theorem overlapping_plays_open_two_streams :
  let w := fst (run (world0 demo_files) overlapping_plays_trace) in
  open_streams w = [0; 1]%nat ∧
  open_sockets w = [0; 1]%nat ∧
  activeReadStream w = Some 1%nat ∧ activeSocket w = Some 1%nat ∧
  (rs_pipe <$> streams w) = [Some 1; Some 1]%nat ∧
  written (fst (run w [EvData 0 2; EvData 1 2])) 1
    = [Byte.x01; Byte.x02; Byte.x11; Byte.x12].
Proof. vm_compute. repeat split. Qed.

(** ** Pause and resume: the bytes of a whole cycle *)

Lemma take_min {A} (l : list A) (n : nat) :
  take n l = take (n `min` length l) l.
Proof.
  destruct (le_lt_dec n (length l)).
  - by rewrite Nat.min_l by lia.
  - rewrite Nat.min_r by lia. rewrite !take_ge; [done | lia | lia].
Qed.

Lemma chunk_extends {A} (c : list A) (base j n : nat) :
  (base ≤ j ≤ length c)%nat →
  take (j - base) (drop base c) ++ take n (drop j c) =
  take ((j + n) `min` length c - base) (drop base c).
Proof.
  intros Hj.
  replace (drop j c) with (drop (j - base) (drop base c))
    by (rewrite drop_drop; f_equal; lia).
  rewrite take_take_drop.
  rewrite (take_min (drop base c)), length_drop. f_equal. lia.
Qed.

Lemma same_but_socket_refl s w : same_but_socket s w w.
Proof. by repeat split. Qed.

Lemma same_but_socket_trans s w1 w2 w3 :
  same_but_socket s w1 w2 → same_but_socket s w2 w3 →
  same_but_socket s w1 w3.
Proof.
  intros (A1 & A2 & A3 & A4 & A5) (B1 & B2 & B3 & B4 & B5).
  repeat split; try congruence.
  intros i Hi. rewrite B3, A3; done.
Qed.

(** One chunk. *)
Lemma data_step w f c r s base j n :
  streaming w f c r s base j →
  ∃ w',
    step w (EvData r n) = (w', []) ∧
    streaming w' f c r s base ((j + n) `min` length c) ∧
    same_but_socket s w w'.
Proof.
  intros (Hc & Hf & Har & Has & Hrs & (sk & Hsk & He & Hd & Hw) & Hb & Hj).
  unfold step. rewrite Hc, Hrs. cbn [rs_destroyed].
  unfold read_chunk. cbn [rs_path rs_pos rs_pipe]. rewrite Hf, Nat2Z.id.
  destruct (take n (drop j c)) as [|b l] eqn:Echunk.
  - exists w. split; [done|]. split; [|apply same_but_socket_refl].
    assert (Hlen : length (take n (drop j c)) = 0%nat) by by rewrite Echunk.
    rewrite length_take, length_drop in Hlen.
    replace ((j + n) `min` length c)%nat with j by lia.
    repeat split; try done; try lia. by exists sk.
  - rewrite <- Echunk.
    assert (Hlen : length (take n (drop j c))
                   = ((j + n) `min` length c - j)%nat)
      by (rewrite length_take, length_drop; lia).
    eexists. split; [reflexivity|].
    unfold data_callback, on_socket, on_stream.
    destruct w as [st a ar sks rds pd fs cr]. cbn -[alter take drop] in *.
    unfold streaming, same_but_socket.
    cbn -[alter take drop Nat.min length].
    split; [|repeat split].
    + repeat split; try done; try lia.
      * rewrite list_lookup_alter_eq, Hrs. cbn. unfold rs_advance. cbn.
        do 2 f_equal. rewrite Hlen. lia.
      * exists (sk_write (take n (drop j c)) sk).
        rewrite list_lookup_alter_eq, Hsk. unfold sk_write.
        rewrite He, Hd. cbn -[take drop Nat.min length]. rewrite He, Hd.
        cbn -[take drop Nat.min length].
        split; [done|]. split; [done|]. split; [done|].
        rewrite Hw. by apply chunk_extends.
    + by rewrite length_alter.
    + by rewrite length_alter.
    + intros i Hi. by rewrite list_lookup_alter_ne.
Qed.

(** Any number of chunks. *)
Lemma data_run ns : ∀ w f c r s base j,
  streaming w f c r s base j →
  ∃ w',
    run w (map (EvData r) ns) = (w', []) ∧
    streaming w' f c r s base ((j + sum_list ns) `min` length c) ∧
    same_but_socket s w w'.
Proof.
  induction ns as [|n ns IH]; intros w f c r s base j Hs.
  - exists w. split; [done|]. split; [|apply same_but_socket_refl].
    cbn. replace ((j + 0) `min` length c)%nat with j; [done|].
    destruct Hs as (_ & _ & _ & _ & _ & _ & _ & Hj). lia.
  - destruct (data_step w f c r s base j n Hs) as (w1 & E1 & Hs1 & Hfr1).
    destruct (IH w1 f c r s base _ Hs1) as (w2 & E2 & Hs2 & Hfr2).
    exists w2. split; [|split].
    + cbn [map run]. by rewrite E1, E2.
    + replace ((j + sum_list (n :: ns)) `min` length c)%nat
        with (((j + n) `min` length c + sum_list ns) `min` length c)%nat
        by (cbn; lia).
      done.
    + by eapply same_but_socket_trans.
Qed.

(** A play request on an idle world, up to the established connection. *)
Lemma start_streaming w f c req h j :
  idle_at w j → f ≠ EmptyString → files w f = Some c →
  (j ≤ length c)%nat →
  let s := length (sockets w) in
  let r := length (streams w) in
  ∃ w2 out,
    run w [EvPlay req (JStr f); EvInspected req h; EvConnect s] = (w2, out) ∧
    out = [Broadcast {| ms_playing := true; ms_currentFile := Some (Some f) |};
           Respond req 200 BOk] ∧
    streaming w2 f c r s j j ∧
    length (sockets w2) = S s ∧ length (streams w2) = S r ∧
    (∀ i, (i < s)%nat → sockets w2 !! i = sockets w !! i) ∧
    streams w2 !! r = Some {| rs_path := f; rs_pos := bytesSent (STATE w);
                              rs_destroyed := false; rs_pipe := Some s |}.
Proof.
  intros (Hc & Has & Har & Hb) Hne Hf Hj s r.
  destruct (play_fields w req f c h Hc Hne Hf)
    as (w1 & E1 & Hst1 & Has1 & Har1 & Hsk1 & Hrs1 & Hfs1 & Hc1).
  rewrite Has in Hsk1. rewrite Har in Hrs1.
  assert (Hlook : sockets w1 !! s = Some (new_socket f req))
    by (rewrite Hsk1; apply lookup_last).
  destruct (connect_fields w1 s _ s Hc1 Hlook eq_refl eq_refl Has1)
    as (w2 & E2 & Hst2 & Has2 & Har2 & Hsk2 & Hrs2 & Hfs2 & Hc2).
  assert (Hoff : start_offset (STATE w1) = Z.of_nat j).
  { rewrite start_offset_bytesSent; rewrite Hst1; cbn; lia. }
  assert (Hr : streams w2 !! r =
               Some {| rs_path := f; rs_pos := Z.of_nat j;
                       rs_destroyed := false; rs_pipe := Some s |}).
  { rewrite Hrs2, Hrs1, Hoff. apply lookup_last. }
  exists w2, (snd (step w1 (EvConnect s))).
  split; [|split; [|split; [|split; [|split; [|split]]]]].
  - change [EvPlay req (JStr f); EvInspected req h; EvConnect s]
      with ([EvPlay req (JStr f); EvInspected req h] ++ [EvConnect s]).
    rewrite run_app, E1. cbn [fst snd run]. by rewrite E2.
  - rewrite E2. cbn. by rewrite Hst1.
  - unfold streaming. rewrite Hfs2, Hfs1, Har2, Hrs1, Hst2.
    repeat split; try done; try lia.
    + exists (sk_connected (new_socket f req)).
      rewrite Hsk2, list_lookup_alter_eq, Hlook. cbn.
      repeat split. by rewrite Nat.sub_diag.
    + cbn. rewrite Hst1. cbn. done.
  - rewrite Hsk2, length_alter, Hsk1, length_app. cbn. lia.
  - rewrite Hrs2, Hrs1, length_app. cbn. lia.
  - intros i Hi. rewrite Hsk2, list_lookup_alter_ne, Hsk1 by lia.
    by apply lookup_app_l.
  - by rewrite Hr, Hb.
Qed.

(** Pausing a streaming session. *)
Lemma pause_streaming w f c r s base j req :
  streaming w f c r s base j →
  ∃ w',
    step w (EvPause req) =
      (w', [Broadcast status_stopped; Respond req 200 BOk]) ∧
    idle_at w' j ∧ files w' = files w ∧
    written w' s = take (j - base) (drop base c) ∧
    length (sockets w') = length (sockets w) ∧
    length (streams w') = length (streams w) ∧
    currentFile (STATE w') = currentFile (STATE w).
Proof.
  intros (Hc & Hf & Har & Has & Hrs & (sk & Hsk & He & Hd & Hw) & Hb & Hj).
  destruct (pause_fields w req Hc)
    as (w' & E & Hst & Has' & Har' & Hsk' & Hrs' & Hfs & Hc').
  rewrite Has in Hsk'. rewrite Har in Hrs'.
  exists w'. split; [done|]. repeat split; try done.
  - by rewrite Hst.
  - unfold written. rewrite Hsk', !list_lookup_alter_eq, Hsk. by cbn.
  - by rewrite Hsk', !length_alter.
  - by rewrite Hrs', !length_alter.
  - by rewrite Hst.
Qed.

Lemma written_streaming w f c r s base j :
  streaming w f c r s base j → written w s = take (j - base) (drop base c).
Proof.
  intros (_ & _ & _ & _ & _ & (sk & Hsk & _ & _ & Hw) & _).
  unfold written. by rewrite Hsk.
Qed.

(** In a session started on an idle relay, the read stream reads the file
    that is [currentFile], up to its end. *)
Lemma session_reads_current_file w f c req h j ns :
  idle_at w j → f ≠ EmptyString → files w f = Some c →
  (j ≤ length c)%nat →
  let r := length (streams w) in
  let w2 := fst (run w ([EvPlay req (JStr f); EvInspected req h;
                         EvConnect (length (sockets w))]
                          ++ map (EvData r) ns)) in
  ∃ rs, streams w2 !! r = Some rs ∧ rs_destroyed rs = false ∧
        activeReadStream w2 = Some r ∧
        rs_path rs = f ∧ currentFile (STATE w2) = Some (rs_path rs).
Proof.
  intros Hidle Hne Hf Hj r w2. subst w2.
  destruct (start_streaming w f c req h j Hidle Hne Hf Hj)
    as (wa & oa & Ea & _ & Hsa & _).
  fold r in Ea, Hsa.
  assert (Hcur : currentFile (STATE wa) = Some f).
  { destruct Hidle as (Hc & _).
    destruct (play_connect_fields w req f c h Hc Hne Hf)
      as (w1 & w2 & E1 & E2 & Hst1 & Hst2 & _).
    change [EvPlay req (JStr f); EvInspected req h;
            EvConnect (length (sockets w))]
      with ([EvPlay req (JStr f); EvInspected req h]
              ++ [EvConnect (length (sockets w))]) in Ea.
    rewrite run_app, E1 in Ea. cbn [fst snd run] in Ea.
    rewrite E2 in Ea. injection Ea as <- _.
    by rewrite Hst2, Hst1. }
  destruct (data_run ns wa f c r _ j j Hsa) as (wb & Eb & Hsb & Hfr).
  rewrite run_app, Ea. cbn [fst]. rewrite Eb. cbn [fst].
  destruct Hsb as (_ & _ & Har & _ & Hrs & _).
  destruct Hfr as (_ & _ & _ & _ & Hcf).
  eexists. split; [exact Hrs|]. cbn. repeat split; try done.
  by rewrite Hcf.
Qed.

(** X20: a file is played from an idle session, paused after any number of
    chunks, and played again.  The resumed read stream is opened on the
    same file exactly at the [bytesSent] recorded at the pause, which is
    the number of bytes handed to the first socket's [write]; whatever the
    chunk sizes, the bytes handed to the two sockets, in order, are a prefix
    of the file, and [bytesSent] is their number: none is left out, none is
    handed over twice.  Once the chunks cover the file, the two sockets
    together have been handed exactly the file, and [end] completes the
    session. *)
Theorem resume_sends_each_byte_once
  (w : world) (f : string) (c : list Byte.byte) (rq1 rq2 rq3 : nat)
  (h1 h3 : option wav_header) (ns1 ns2 : list nat) :
  idle_at w 0 → f ≠ EmptyString → files w f = Some c →
  let s1 := length (sockets w) in
  let r1 := length (streams w) in
  let first := [EvPlay rq1 (JStr f); EvInspected rq1 h1; EvConnect s1]
               ++ map (EvData r1) ns1 ++ [EvPause rq2] in
  let again := [EvPlay rq3 (JStr f); EvInspected rq3 h3; EvConnect (S s1)] in
  let wp := fst (run w first) in
  let wr := fst (run wp again) in
  let wd := fst (run wr (map (EvData (S r1)) ns2)) in
  written wp s1 = take (sum_list ns1) c ∧
  bytesSent (STATE wp) = Z.of_nat (length (written wp s1)) ∧
  In (Respond rq3 200 BOk) (snd (run wp again)) ∧
  streams wr !! S r1 = Some {| rs_path := f; rs_pos := bytesSent (STATE wp);
                               rs_destroyed := false;
                               rs_pipe := Some (S s1) |} ∧
  written wd s1 ++ written wd (S s1) = take (sum_list ns1 + sum_list ns2) c ∧
  bytesSent (STATE wd)
    = Z.of_nat (length (written wd s1 ++ written wd (S s1))) ∧
  ((length c ≤ sum_list ns1 + sum_list ns2)%nat →
     written wd s1 ++ written wd (S s1) = c ∧
     snd (step wd (EvEnd (S r1))) = [Broadcast status_stopped] ∧
     playing (STATE (fst (step wd (EvEnd (S r1))))) = false ∧
     bytesSent (STATE (fst (step wd (EvEnd (S r1))))) = 0).
Proof.
  intros Hidle Hne Hf s1 r1 first again wp wr wd.
  (* first session *)
  destruct (start_streaming w f c rq1 h1 0 Hidle Hne Hf ltac:(lia))
    as (wa & oa & Ea & _ & Hsa & Hla & Hlra & _ & _).
  fold s1 r1 in Ea, Hsa, Hla, Hlra.
  destruct (data_run ns1 wa f c r1 s1 0 0 Hsa) as (wb & Eb & Hsb & Hfrb).
  rewrite Nat.add_0_l in Hsb.
  set (k := (sum_list ns1 `min` length c)%nat) in *.
  destruct (pause_streaming wb f c r1 s1 0 k rq2 Hsb)
    as (wp' & Ep & Hip & Hfp & Hwp & Hlp & Hlrp & _).
  assert (Ewp : wp = wp').
  { subst wp first. rewrite run_app, Ea. cbn [fst].
    rewrite run_app, Eb. cbn [fst run]. by rewrite Ep. }
  clearbody wp. subst wp.
  rewrite Nat.sub_0_r, drop_0 in Hwp.
  assert (Hfb : files wb f = Some c) by apply Hsb.
  assert (Hk : (k ≤ length c)%nat) by (subst k; lia).
  assert (Hlsp : length (sockets wp') = S s1).
  { destruct Hfrb as (L & _). by rewrite Hlp, L. }
  assert (Hlrp' : length (streams wp') = S r1).
  { destruct Hfrb as (_ & L & _). by rewrite Hlrp, L. }
  (* second session *)
  assert (Hfp' : files wp' f = Some c) by (by rewrite Hfp).
  destruct (start_streaming wp' f c rq3 h3 k Hip Hne Hfp' Hk)
    as (wr' & orr & Er & Hout & Hsr & _ & _ & Hfrr & Hnew).
  rewrite Hlsp in Er, Hsr, Hfrr, Hnew. rewrite Hlrp' in Hsr, Hnew.
  assert (Ewr : wr = wr') by (subst wr again; by rewrite Er).
  assert (Eor : snd (run wp' again) = orr) by (subst again; by rewrite Er).
  clearbody wr. subst wr.
  destruct (data_run ns2 wr' f c (S r1) (S s1) k k Hsr)
    as (wd' & Ed & Hsd & Hfrd).
  assert (Ewd : wd = wd') by (subst wd; by rewrite Ed).
  clearbody wd. subst wd.
  set (j := ((k + sum_list ns2) `min` length c)%nat) in *.
  assert (Hw1 : written wd' s1 = take k c).
  { unfold written. destruct Hfrd as (_ & _ & Hoth & _).
    rewrite Hoth by lia. rewrite Hfrr by lia. exact Hwp. }
  assert (Hw2 : written wd' (S s1) = take (j - k) (drop k c))
    by (eapply written_streaming; eauto).
  assert (Hj : (k ≤ j ≤ length c)%nat) by apply Hsd.
  assert (Hall : written wd' s1 ++ written wd' (S s1) = take j c).
  { rewrite Hw1, Hw2, take_take_drop. f_equal. lia. }
  assert (Hbd : bytesSent (STATE wd') = Z.of_nat j) by apply Hsd.
  split; [|split; [|split; [|split; [|split; [|split]]]]].
  - rewrite Hwp. subst k. symmetry. apply take_min.
  - rewrite Hwp, length_take. destruct Hip as (_ & _ & _ & ->).
    f_equal. lia.
  - rewrite Eor, Hout. right. by left.
  - exact Hnew.
  - rewrite Hall. subst j k.
    rewrite (take_min c (sum_list ns1 + sum_list ns2)). f_equal. lia.
  - rewrite Hall, length_take, Hbd. f_equal. lia.
  - intros Hcover.
    assert (Ej : j = length c) by (subst j k; lia).
    assert (Hrd : streams wd' !! S r1 =
                  Some {| rs_path := f; rs_pos := Z.of_nat j;
                          rs_destroyed := false; rs_pipe := Some (S s1) |})
      by apply Hsd.
    assert (Hcd : crashed wd' = false) by apply Hsd.
    assert (Hfd : files wd' f = Some c) by apply Hsd.
    destruct (end_fields wd' (S r1) _ Hcd Hrd eq_refl)
      as (we & Ee & Hste & _).
    { unfold at_eof. cbn. rewrite Hfd. apply Z.leb_le. lia. }
    rewrite Ee. cbn [fst snd]. rewrite Hste. cbn.
    repeat split; try done.
    rewrite Hall, Ej. by apply take_ge.
Qed.

Lemma resume_sends_each_byte_once_witness :
  let first := [EvPlay 1 (JStr "a.wav"); EvInspected 1 None; EvConnect 0;
                EvData 0 3; EvPause 2] in
  let again := [EvPlay 3 (JStr "a.wav"); EvInspected 3 None; EvConnect 1] in
  let wd := fst (run (fst (run (fst (run (world0 demo_files) first)) again))
                   [EvData 1 2; EvData 1 100]) in
  written wd 0 ++ written wd 1 =
    [Byte.x01; Byte.x02; Byte.x03; Byte.x04;
     Byte.x05; Byte.x06; Byte.x07; Byte.x08] ∧
  bytesSent (STATE (fst (step wd (EvEnd 1)))) = 0.
Proof.
  pose proof (resume_sends_each_byte_once (world0 demo_files) "a.wav" _
                1 2 3 None None [3%nat] [2%nat; 100%nat]
                ltac:(by repeat split) ltac:(discriminate) eq_refl) as H.
  cbv zeta in H.
  destruct H as (_ & _ & _ & _ & _ & _ & H).
  destruct H as (Hall & _ & _ & Hb); [cbn; lia|].
  split; [exact Hall | exact Hb].
Defined.


(** ** What does hold of the sockets, for every run

    Whatever the order of requests and callbacks, the handlers never let go
    of a socket without calling [end()] or [destroy()] on it.  The read
    streams have no such invariant: the connect callback overwrites
    [activeReadStream] without looking at it. *)

Lemma lookup_alter_inv {A} (f : A → A) (l : list A) (s i : nat) (y : A) :
  alter f s l !! i = Some y →
  ∃ x, l !! i = Some x ∧ ((i = s ∧ y = f x) ∨ (i ≠ s ∧ y = x)).
Proof.
  destruct (decide (s = i)) as [->|Hne].
  - rewrite list_lookup_alter_eq. destruct (l !! i) as [x|]; [|done].
    intros [= <-]. exists x. split; [done|]. by left.
  - rewrite list_lookup_alter_ne by done. intros H. exists y.
    split; [done|]. right. split; [congruence | done].
Qed.

Lemma sk_live_end sk : sk_live (sk_end sk) = false.
Proof. done. Qed.

Lemma sk_live_destroy sk : sk_live (sk_destroy sk) = false.
Proof. unfold sk_live. cbn. apply andb_false_r. Qed.

Lemma sk_live_close sk : sk_live (sk_close sk) = false.
Proof. unfold sk_live. cbn. apply andb_false_r. Qed.

Lemma sk_live_connected sk : sk_live (sk_connected sk) = sk_live sk.
Proof. done. Qed.

Lemma sk_live_write chunk sk : sk_live (sk_write chunk sk) = sk_live sk.
Proof. unfold sk_write. by destruct (sk_ended sk || sk_destroyed sk). Qed.

(** After [cleanupStream] no socket is live. *)
Lemma cleanup_closes_all w i sk :
  spare_sockets_closed w →
  sockets (cleanupStream false w) !! i = Some sk → sk_live sk = false.
Proof.
  intros Hinv Hl.
  destruct (cleanupStream_fields w) as (_ & _ & _ & Hsk & _).
  rewrite Hsk in Hl. destruct (sk_live sk) eqn:Elive; [|done].
  destruct (activeSocket w) as [a|] eqn:Ea.
  - apply lookup_alter_inv in Hl as (x & Hx & [[-> ->] | [Hne ->]]).
    + by rewrite sk_live_destroy in Elive.
    + specialize (Hinv i x Hx Elive). congruence.
  - specialize (Hinv i sk Hl Elive). congruence.
Qed.

Lemma spare_after_cleanup w :
  spare_sockets_closed w → spare_sockets_closed (cleanupStream false w).
Proof.
  intros Hinv i sk Hl Hlive.
  rewrite (cleanup_closes_all w i sk Hinv Hl) in Hlive. discriminate.
Qed.

(** Calling a method on some socket, current or not, keeps the invariant
    as long as the method brings no socket back to life. *)
Lemma spare_on_socket (f : socket → socket) s w :
  (∀ sk, sk_live (f sk) = true → sk_live sk = true) →
  spare_sockets_closed w → spare_sockets_closed (on_socket f s w).
Proof.
  intros Hf Hinv i sk Hl Hlive. cbn in *.
  apply lookup_alter_inv in Hl as (x & Hx & [[-> ->] | [Hne ->]]); eauto.
Qed.

Lemma spare_set_STATE st w :
  spare_sockets_closed w → spare_sockets_closed (set_STATE st w).
Proof. done. Qed.

Lemma spare_on_stream f r w :
  spare_sockets_closed w → spare_sockets_closed (on_stream f r w).
Proof. done. Qed.

Lemma spare_failure w :
  spare_sockets_closed w → spare_sockets_closed (fst (failure_callback w)).
Proof. apply spare_after_cleanup. Qed.

Lemma spare_play_resume req h w :
  spare_sockets_closed w → spare_sockets_closed (fst (play_resume req h w)).
Proof.
  intros Hinv. unfold play_resume.
  destruct (pending w !! req) as [id|]; [|done].
  intros i sk Hl Hlive.
  destruct w as [st a ar sks rds pd fs cr].
  unfold spare_sockets_closed in Hinv. cbn in Hinv.
  assert (Hold : ∀ j x,
            match a with Some s => alter sk_end s sks | None => sks end !! j
              = Some x → sk_live x = true → False).
  { intros j x Hj Hx. destruct a as [s|].
    - apply lookup_alter_inv in Hj as (y & Hy & [[-> ->] | [Hne ->]]).
      + by rewrite sk_live_end in Hx.
      + specialize (Hinv j y Hy Hx). congruence.
    - specialize (Hinv j x Hj Hx). congruence. }
  destruct a as [s|], ar as [r|]; cbn -[alter] in Hl |- *;
    rewrite ?length_alter in *;
    (destruct (decide (i < length sks)%nat);
     [ rewrite lookup_app_l in Hl by (by rewrite ?length_alter);
       exfalso; eapply Hold; eauto
     | destruct (decide (i = length sks)) as [->|];
       [ done
       | rewrite lookup_ge_None_2 in Hl
           by (rewrite length_app, ?length_alter; cbn; lia);
         done ] ]).
Qed.

Lemma spare_connect_callback filePath res w :
  spare_sockets_closed w →
  spare_sockets_closed (fst (connect_callback filePath res w)).
Proof.
  intros Hinv. unfold connect_callback.
  destruct w as [st [a|] ar sks rds pd fs cr]; exact Hinv.
Qed.

Lemma spare_step w e :
  spare_sockets_closed w → spare_sockets_closed (fst (step w e)).
Proof.
  intros Hinv. unfold step. destruct (crashed w); [done|].
  destruct e as [req v|req h|req|req|s|s|s|r n|r|r]; cbn [fst].
  - unfold play_request. destruct (negb (truthy v)); [done|].
    destruct v; try done. by destruct (files w s).
  - by apply spare_play_resume.
  - unfold api_pause. apply spare_set_STATE, spare_after_cleanup.
    assert (H1 : spare_sockets_closed (destroy_active_stream w)).
    { unfold destroy_active_stream.
      destruct (activeReadStream w); [by apply spare_on_stream | done]. }
    unfold end_active_socket.
    destruct (activeSocket (destroy_active_stream w)); [|done].
    apply spare_on_socket; [|done]. intros x. by rewrite sk_live_end.
  - done.
  - destruct (sockets w !! s) as [sk|]; [|done].
    destruct (sk_connecting sk && negb (sk_destroyed sk)); [|done].
    apply spare_connect_callback, spare_on_socket; done.
  - destruct (sockets w !! s) as [sk|]; [|done].
    destruct (sk_destroyed sk); [done|].
    apply spare_failure, spare_on_socket; [|done].
    intros x. by rewrite sk_live_destroy.
  - destruct (sockets w !! s) as [sk|]; [|done].
    destruct (sk_closed sk); [done|].
    apply spare_failure, spare_on_socket; [|done].
    intros x. by rewrite sk_live_close.
  - destruct (streams w !! r) as [rs|]; [|done].
    destruct (rs_destroyed rs); [done|].
    destruct (read_chunk w rs n) as [|b l]; [done|]. cbn [fst].
    unfold data_callback. destruct (rs_pipe rs) as [d|].
    + apply spare_on_socket; [|done].
      intros x. by rewrite sk_live_write.
    + done.
  - destruct (streams w !! r) as [rs|]; [|done].
    destruct (negb (rs_destroyed rs) && at_eof w rs); [|done].
    unfold end_callback. cbn [fst].
    apply spare_on_stream, spare_after_cleanup. done.
  - destruct (streams w !! r) as [rs|]; [|done].
    destruct (rs_destroyed rs); [done|].
    apply spare_failure. by apply spare_on_stream.
Qed.

(** From start-up on, and for every sequence of requests and callbacks, a
    socket other than the current one has been ended or destroyed. *)
Lemma spare_sockets_always_closed fs es :
  spare_sockets_closed (fst (run (world0 fs) es)).
Proof.
  assert (H : ∀ es w, spare_sockets_closed w →
                      spare_sockets_closed (fst (run w es))).
  { clear es. induction es as [|e es IH]; intros w Hw; [done|].
    rewrite run_cons. cbn [fst]. apply IH. by apply spare_step. }
  apply H. intros i sk Hl. done.
Qed.

(** * Further properties of the relay *)

(** ** Invariants of every run *)

Lemma run_invariant (P : world → Prop) :
  (∀ w e, P w → P (fst (step w e))) →
  ∀ es w, P w → P (fst (run w es)).
Proof.
  intros Hstep. induction es as [|e es IH]; intros w Hw; [done|].
  rewrite run_cons. cbn [fst]. apply IH. by apply Hstep.
Qed.

Lemma offsets_cleanup w :
  offsets_nonneg w → offsets_nonneg (cleanupStream false w).
Proof.
  intros [Hb Hs].
  destruct (cleanupStream_fields w) as (Hst & _ & _ & _ & Hrs & _).
  split; [by rewrite Hst|]. intros r rs. rewrite Hrs.
  destruct (activeReadStream w) as [a|]; [|apply Hs].
  intros Hl. apply lookup_alter_inv in Hl as (x & Hx & [[-> ->] | [_ ->]]);
    by apply (Hs _ _ Hx).
Qed.

Lemma offsets_on_stream (f : rstream → rstream) i w :
  (∀ rs, 0 <= rs_pos rs → 0 <= rs_pos (f rs)) →
  offsets_nonneg w → offsets_nonneg (on_stream f i w).
Proof.
  intros Hf [Hb Hs]. split; [done|]. intros r rs Hl. cbn in Hl.
  apply lookup_alter_inv in Hl as (x & Hx & [[-> ->] | [_ ->]]).
  - apply Hf. by apply (Hs _ _ Hx).
  - by apply (Hs _ _ Hx).
Qed.

Lemma offsets_on_socket f i w :
  offsets_nonneg w → offsets_nonneg (on_socket f i w).
Proof. done. Qed.

Lemma offsets_play_resume req h w :
  offsets_nonneg w → offsets_nonneg (fst (play_resume req h w)).
Proof.
  intros [Hb Hs]. unfold play_resume.
  destruct (pending w !! req) as [id|]; [|done].
  destruct w as [st [a|] [ar|] sks rds pd fs cr]; cbn -[alter] in *;
    (split; [done|]); intros r rs Hl; try by apply (Hs _ _ Hl).
  all: apply lookup_alter_inv in Hl as (x & Hx & [[-> ->] | [_ ->]]);
    by apply (Hs _ _ Hx).
Qed.

Lemma offsets_connect_callback filePath res w :
  offsets_nonneg w → offsets_nonneg (fst (connect_callback filePath res w)).
Proof.
  intros [Hb Hs]. unfold connect_callback.
  assert (Hnew : ∀ d r rs,
    alter (rs_set_pipe d) (length (streams w))
      (streams w ++ [{| rs_path := filePath; rs_pos := start_offset (STATE w);
                        rs_destroyed := false; rs_pipe := None |}]) !! r
      = Some rs → 0 <= rs_pos rs).
  { intros d r rs. rewrite alter_last. intros Hl.
    destruct (decide (r < length (streams w))%nat).
    - rewrite lookup_app_l in Hl by done. by apply (Hs _ _ Hl).
    - destruct (decide (r = length (streams w))) as [->|].
      + rewrite lookup_last in Hl. injection Hl as <-. cbn.
        apply start_offset_nonneg.
      + rewrite lookup_ge_None_2 in Hl; [done|].
        rewrite length_app. cbn. lia. }
  destruct w as [st [a|] ar sks rds pd fs cr]; cbn -[alter] in *.
  - split; [done|]. apply Hnew.
  - split; [done|]. intros r rs Hl. apply (Hnew None r rs).
    by rewrite alter_last.
Qed.

Lemma offsets_step w e : offsets_nonneg w → offsets_nonneg (fst (step w e)).
Proof.
  intros Hinv. unfold step. destruct (crashed w); [done|].
  destruct e as [req v|req h|req|req|s|s|s|r n|r|r]; cbn [fst].
  - unfold play_request. destruct (negb (truthy v)); [done|].
    destruct v; try done. by destruct (files w s).
  - by apply offsets_play_resume.
  - unfold api_pause. cbn [fst].
    assert (H1 : offsets_nonneg (destroy_active_stream w)).
    { unfold destroy_active_stream.
      destruct (activeReadStream w); [by apply offsets_on_stream | done]. }
    assert (H2 : offsets_nonneg (end_active_socket (destroy_active_stream w))).
    { unfold end_active_socket.
      by destruct (activeSocket (destroy_active_stream w)). }
    apply offsets_cleanup in H2. destruct H2 as [? ?]. by split.
  - done.
  - destruct (sockets w !! s) as [sk|]; [|done].
    destruct (sk_connecting sk && negb (sk_destroyed sk)); [|done].
    by apply offsets_connect_callback.
  - destruct (sockets w !! s) as [sk|]; [|done].
    destruct (sk_destroyed sk); [done|].
    unfold failure_callback. cbn [fst]. by apply offsets_cleanup.
  - destruct (sockets w !! s) as [sk|]; [|done].
    destruct (sk_closed sk); [done|].
    unfold failure_callback. cbn [fst]. by apply offsets_cleanup.
  - destruct (streams w !! r) as [rs|]; [|done].
    destruct (rs_destroyed rs); [done|].
    destruct (read_chunk w rs n) as [|b l]; [done|]. cbn [fst].
    assert (H1 : offsets_nonneg
                   (on_stream (rs_advance (Z.of_nat (length (b :: l)))) r w)).
    { apply offsets_on_stream; [|done]. intros x Hx. cbn. lia. }
    destruct H1 as [Hb Hs]. unfold data_callback.
    destruct (rs_pipe rs); (split; [cbn in *; lia | exact Hs]).
  - destruct (streams w !! r) as [rs|]; [|done].
    destruct (negb (rs_destroyed rs) && at_eof w rs); [|done].
    unfold end_callback. cbn [fst]. apply offsets_on_stream; [done|].
    apply offsets_cleanup. destruct Hinv as [Hb Hs]. by split.
  - destruct (streams w !! r) as [rs|]; [|done].
    destruct (rs_destroyed rs); [done|].
    unfold failure_callback. cbn [fst].
    by apply offsets_cleanup, offsets_on_stream.
Qed.

(** X2: from start-up on and in every run, [bytesSent] and the offset of
    every read stream are at least 0; so a read stream is always opened
    exactly at [bytesSent]. *)
Theorem offsets_never_negative fs es :
  let w := fst (run (world0 fs) es) in
  offsets_nonneg w ∧ start_offset (STATE w) = bytesSent (STATE w).
Proof.
  assert (H : offsets_nonneg (fst (run (world0 fs) es))).
  { apply run_invariant; [apply offsets_step|]. split; [done|].
    intros r rs Hl. done. }
  split; [exact H|]. apply start_offset_bytesSent, H.
Qed.

Lemma file_named_step w e : file_named w → file_named (fst (step w e)).
Proof.
  intros [Hs Hp]. unfold step. destruct (crashed w); [done|].
  destruct e as [req v|req h|req|req|s|s|s|r n|r|r]; cbn [fst].
  - unfold play_request. destruct (negb (truthy v)); [done|].
    destruct v; try done. by destruct (files w s).
  - unfold play_resume. destruct (pending w !! req) as [id|]; [|done].
    destruct w as [st [a|] [ar|] sks rds pd fs cr]; by split.
  - unfold api_pause, cleanupStream, destroy_active_stream,
      end_active_socket, destroy_active_socket, on_socket, on_stream.
    destruct w as [st [a|] [ar|] sks rds pd fs cr]; cbn -[alter] in *;
      (split; [|done]); intros Hne; apply Hs; intros ->; by apply Hne.
  - done.
  - destruct (sockets w !! s) as [sk|] eqn:Hsk; [|done].
    destruct (sk_connecting sk && negb (sk_destroyed sk)); [|done].
    assert (Hf : is_Some (currentFile (STATE w))).
    { apply Hs. intros E. by rewrite E in Hsk. }
    unfold connect_callback.
    destruct w as [st [a|] ar sks rds pd fs cr]; by split.
  - destruct (sockets w !! s) as [sk|] eqn:Hsk; [|done].
    destruct (sk_destroyed sk); [done|].
    assert (Hf : is_Some (currentFile (STATE w))).
    { apply Hs. intros E. by rewrite E in Hsk. }
    unfold failure_callback, cleanupStream, destroy_active_stream,
      destroy_active_socket.
    destruct w as [st [a|] [ar|] sks rds pd fs cr]; by split.
  - destruct (sockets w !! s) as [sk|] eqn:Hsk; [|done].
    destruct (sk_closed sk); [done|].
    assert (Hf : is_Some (currentFile (STATE w))).
    { apply Hs. intros E. by rewrite E in Hsk. }
    unfold failure_callback, cleanupStream, destroy_active_stream,
      destroy_active_socket.
    destruct w as [st [a|] [ar|] sks rds pd fs cr]; by split.
  - destruct (streams w !! r) as [rs|]; [|done].
    destruct (rs_destroyed rs); [done|].
    destruct (read_chunk w rs n) as [|b l]; [done|]. cbn [fst].
    unfold data_callback, on_socket, on_stream.
    destruct (rs_pipe rs); cbn -[alter]; (split; [|done]);
      intros Hne; apply Hs; intros E; apply Hne; rewrite ?E; done.
  - destruct (streams w !! r) as [rs|]; [|done].
    destruct (negb (rs_destroyed rs) && at_eof w rs); [|done].
    unfold end_callback, cleanupStream, destroy_active_stream,
      destroy_active_socket, on_socket, on_stream.
    destruct w as [st [a|] [ar|] sks rds pd fs cr]; cbn -[alter] in *;
      (split; [|done]); intros Hne; apply Hs; intros ->; by apply Hne.
  - destruct (streams w !! r) as [rs|]; [|done].
    destruct (rs_destroyed rs); [done|].
    unfold failure_callback, cleanupStream, destroy_active_stream,
      destroy_active_socket, on_socket, on_stream.
    destruct w as [st [a|] [ar|] sks rds pd fs cr]; cbn -[alter] in *;
      (split; [|done]); intros Hne; apply Hs; intros ->; by apply Hne.
Qed.

Lemma file_named_run fs es : file_named (fst (run (world0 fs) es)).
Proof. apply run_invariant; [apply file_named_step|]. by split. Qed.

(** X3: in every run, whenever [STATE.playing] is true [STATE.currentFile]
    holds a file id, and so does the status query's [currentFileId]. *)
Theorem playing_names_a_file fs es :
  let st := STATE (fst (run (world0 fs) es)) in
  playing st = true →
  ∃ id, currentFile st = Some id ∧
        sn_currentFileId (status_snapshot st) = Some id.
Proof.
  intros st Hp. destruct (file_named_run fs es) as [_ H].
  destruct (H Hp) as [id Hid]. by exists id.
Qed.

Lemma playing_names_a_file_witness :
  ∃ id, currentFile (STATE streamed_to_eof) = Some id ∧
        sn_currentFileId (status_snapshot (STATE streamed_to_eof)) = Some id.
Proof.
  apply (playing_names_a_file demo_files
           [EvPlay 1 (JStr "a.wav"); EvInspected 1 None; EvConnect 0;
            EvData 0 5; EvData 0 5]).
  reflexivity.
Defined.

Lemma step_broadcasts w e m :
  file_named w → In (Broadcast m) (snd (step w e)) → status_well_formed m.
Proof.
  intros [Hs Hp]. unfold step. destruct (crashed w); [done|].
  assert (Hstop : ∀ l : list output,
            l = [Broadcast status_stopped] →
            In (Broadcast m) l → status_well_formed m).
  { intros l -> [[= <-] | []]. done. }
  destruct e as [req v|req h|req|req|s|s|s|r n|r|r]; cbn [snd].
  - unfold play_request. destruct (negb (truthy v)); [by intros [|[]]|].
    destruct v; try by intros [|[]].
    destruct (files w s); [done | by intros [|[]]].
  - unfold play_resume. by destruct (pending w !! req).
  - cbn. intros [[= <-] | [|[]]]; done.
  - by intros [|[]].
  - destruct (sockets w !! s) as [sk|] eqn:Hsk; [|done].
    destruct (sk_connecting sk && negb (sk_destroyed sk)); [|done].
    destruct (Hs ltac:(intros E; by rewrite E in Hsk)) as [id Hid].
    unfold connect_callback.
    destruct w as [st [a|] ar sks rds pd fs cr]; cbn -[alter] in *;
      [|done].
    intros [[= <-] | [|[]]]; [|done].
    unfold status_well_formed. cbn. rewrite Hid. by exists id.
  - destruct (sockets w !! s) as [sk|]; [|done].
    destruct (sk_destroyed sk); [done|]. by apply Hstop.
  - destruct (sockets w !! s) as [sk|]; [|done].
    destruct (sk_closed sk); [done|]. by apply Hstop.
  - destruct (streams w !! r) as [rs|]; [|done].
    destruct (rs_destroyed rs); [done|].
    by destruct (read_chunk w rs n).
  - destruct (streams w !! r) as [rs|]; [|done].
    destruct (negb (rs_destroyed rs) && at_eof w rs); [|done].
    by apply Hstop.
  - destruct (streams w !! r) as [rs|]; [|done].
    destruct (rs_destroyed rs); [done|]. by apply Hstop.
Qed.

(** X4: every status message broadcast in any run has one of two shapes:
    [playing: true] together with the id of a file, or [playing: false]
    without a [currentFile] key. *)
Theorem broadcasts_well_formed fs es m :
  In (Broadcast m) (snd (run (world0 fs) es)) → status_well_formed m.
Proof.
  assert (H : ∀ es w, file_named w →
            In (Broadcast m) (snd (run w es)) → status_well_formed m).
  { clear es. induction es as [|e es IH]; intros w Hw; [done|].
    rewrite run_cons. cbn [snd]. rewrite in_app_iff. intros [Hin | Hin].
    - by eapply step_broadcasts.
    - eapply IH; [|exact Hin]. by apply file_named_step. }
  apply H. by split.
Qed.

Lemma broadcasts_well_formed_witness :
  status_well_formed {| ms_playing := true;
                        ms_currentFile := Some (Some "b.wav") |}.
Proof.
  apply (broadcasts_well_formed demo_files switch_file_trace).
  vm_compute. do 4 right. by left.
Defined.

(** ** Pausing twice *)

Lemma pause_when_idle w req :
  crashed w = false → activeSocket w = None → activeReadStream w = None →
  playing (STATE w) = false →
  step w (EvPause req) = (w, [Broadcast status_stopped; Respond req 200 BOk]).
Proof.
  intros Hc Ha Hr Hp. unfold step. rewrite Hc.
  unfold api_pause, cleanupStream, destroy_active_stream,
    end_active_socket, destroy_active_socket.
  destruct w as [[p cf b d br] a ar sks rds pd fs cr]. cbn in *.
  by subst.
Qed.

(** X5: a second pause changes nothing at all: the world after two pauses
    is the world after one, and the second pause is answered like the
    first. *)
Theorem pause_twice_is_pause_once (w : world) (r1 r2 : nat) :
  let w1 := fst (step w (EvPause r1)) in
  fst (step w1 (EvPause r2)) = w1 ∧
  (crashed w = false →
   snd (step w1 (EvPause r2)) = [Broadcast status_stopped; Respond r2 200 BOk]).
Proof.
  intros w1. subst w1.
  destruct (crashed w) eqn:Hc.
  - unfold step. rewrite Hc. cbn [fst]. rewrite Hc. by split.
  - destruct (pause_fields w r1 Hc)
      as (w1 & -> & Hst & Ha & Hr & _ & _ & _ & Hc1).
    cbn [fst]. rewrite (pause_when_idle w1 r2 Hc1 Ha Hr); [done|].
    by rewrite Hst.
Qed.

Lemma pause_twice_is_pause_once_witness :
  snd (step (fst (step streamed_to_eof (EvPause 1))) (EvPause 2))
    = [Broadcast status_stopped; Respond 2 200 BOk].
Proof.
  apply (pause_twice_is_pause_once streamed_to_eof 1 2). reflexivity.
Defined.

(** ** A transfer that is interrupted *)

Lemma sock_close_fields w s sk :
  crashed w = false → sockets w !! s = Some sk → sk_closed sk = false →
  ∃ w',
    step w (EvSockClose s) = (w', [Broadcast status_stopped]) ∧
    STATE w' = STATE w ∧
    activeSocket w' = None ∧ activeReadStream w' = None ∧
    sockets w' = match activeSocket w with
                 | Some a => alter sk_destroy a (alter sk_close s (sockets w))
                 | None => alter sk_close s (sockets w)
                 end ∧
    streams w' = match activeReadStream w with
                 | Some r => alter rs_destroy r (streams w)
                 | None => streams w
                 end ∧
    files w' = files w ∧ crashed w' = false.
Proof.
  intros Hc Hs Hd. unfold step. rewrite Hc, Hs, Hd.
  unfold failure_callback, cleanupStream, destroy_active_stream,
    destroy_active_socket, on_stream, on_socket.
  destruct w as [st [a|] [r|] sks rds pd fs cr]; cbn -[alter] in *;
    eexists; repeat split; eauto.
Qed.

Lemma read_error_fields w r rs :
  crashed w = false → streams w !! r = Some rs → rs_destroyed rs = false →
  ∃ w',
    step w (EvReadError r) = (w', [Broadcast status_stopped]) ∧
    STATE w' = STATE w ∧
    activeSocket w' = None ∧ activeReadStream w' = None ∧
    sockets w' = match activeSocket w with
                 | Some a => alter sk_destroy a (sockets w)
                 | None => sockets w
                 end ∧
    streams w' = match activeReadStream w with
                 | Some a => alter rs_destroy a (alter rs_destroy r (streams w))
                 | None => alter rs_destroy r (streams w)
                 end ∧
    files w' = files w ∧ crashed w' = false.
Proof.
  intros Hc Hs Hd. unfold step. rewrite Hc, Hs, Hd.
  unfold failure_callback, cleanupStream, destroy_active_stream,
    destroy_active_socket, on_stream, on_socket.
  destruct w as [st [a|] [x|] sks rds pd fs cr]; cbn -[alter] in *;
    eexists; repeat split; eauto.
Qed.

Lemma written_alter (f : socket → socket) (l : list socket) w s i :
  sockets w = alter f i l → (∀ sk, sk_written (f sk) = sk_written sk) →
  written w s = match l !! s with Some sk => sk_written sk | None => [] end.
Proof.
  intros E Hf. unfold written. rewrite E.
  destruct (decide (i = s)) as [->|Hne].
  - rewrite list_lookup_alter_eq. destruct (l !! s); cbn; [apply Hf | done].
  - by rewrite list_lookup_alter_ne.
Qed.

(** A socket error, a close of the current socket or a read error during a
    streaming session. *)
Lemma interrupted_fields w f c r s base j e :
  streaming w f c r s base j →
  e = EvSockError s ∨ e = EvReadError r ∨
  (e = EvSockClose s ∧ ∀ sk, sockets w !! s = Some sk → sk_closed sk = false) →
  ∃ w',
    step w e = (w', [Broadcast status_stopped]) ∧
    STATE w' = STATE w ∧ idle_at w' j ∧ files w' = files w ∧
    socket_open w' s = false ∧ stream_open w' r = false ∧
    written w' s = take (j - base) (drop base c) ∧
    length (sockets w') = length (sockets w) ∧
    length (streams w') = length (streams w).
Proof.
  intros (Hc & Hf & Har & Has & Hrs & (sk & Hsk & He & Hd & Hw) & Hb & Hj) He'.
  assert (Hwr : ∀ w', (∃ l, sockets w' = alter sk_destroy s l ∧
                           l !! s = Some sk ∨
                           sockets w' = alter sk_destroy s l ∧
                           l !! s = Some (sk_destroy sk) ∨
                           sockets w' = alter sk_destroy s l ∧
                           l !! s = Some (sk_close sk)) →
                     written w' s = take (j - base) (drop base c)).
  { intros w' (l & [[E Hl] | [[E Hl] | [E Hl]]]);
      rewrite (written_alter sk_destroy l w' s s E) by done;
      by rewrite Hl. }
  destruct He' as [-> | [-> | [-> Hcl]]].
  - destruct (sock_error_fields w s sk Hc Hsk Hd)
      as (w' & E & Hst & Has' & Har' & Hsk' & Hrs' & Hfs & Hc').
    rewrite Has in Hsk'. rewrite Har in Hrs'.
    exists w'. repeat split; try done.
    + by rewrite Hst.
    + by eapply socket_open_alter_destroy.
    + by eapply stream_open_alter_destroy.
    + apply Hwr. eexists. right. left. split; [exact Hsk'|].
      by rewrite list_lookup_alter_eq, Hsk.
    + by rewrite Hsk', !length_alter.
    + by rewrite Hrs', !length_alter.
  - destruct (read_error_fields w r _ Hc Hrs eq_refl)
      as (w' & E & Hst & Has' & Har' & Hsk' & Hrs' & Hfs & Hc').
    rewrite Has in Hsk'. rewrite Har in Hrs'.
    exists w'. repeat split; try done.
    + by rewrite Hst.
    + by eapply socket_open_alter_destroy.
    + by eapply stream_open_alter_destroy.
    + apply Hwr. eexists. left. by split.
    + by rewrite Hsk', !length_alter.
    + by rewrite Hrs', !length_alter.
  - destruct (sock_close_fields w s sk Hc Hsk (Hcl sk Hsk))
      as (w' & E & Hst & Has' & Har' & Hsk' & Hrs' & Hfs & Hc').
    rewrite Has in Hsk'. rewrite Har in Hrs'.
    exists w'. repeat split; try done.
    + by rewrite Hst.
    + by eapply socket_open_alter_destroy.
    + by eapply stream_open_alter_destroy.
    + apply Hwr. eexists. right. right. split; [exact Hsk'|].
      by rewrite list_lookup_alter_eq, Hsk.
    + by rewrite Hsk', !length_alter.
    + by rewrite Hrs', !length_alter.
Qed.

(** X6: when a streaming session is cut by a socket error, by the close of
    its socket or by a read error, the handler destroys the socket and the
    read stream, broadcasts a stop, and leaves [STATE] exactly as it was:
    [bytesSent] keeps the count of the bytes handed to the socket, and
    [playing] is not cleared.  A later play of the same file therefore
    opens it at that offset and goes on from the first unsent byte. *)
Theorem interrupted_session_resumes
  (w : world) (f : string) (c : list Byte.byte) (r s base j : nat)
  (e : event) (req : nat) (h : option wav_header) :
  streaming w f c r s base j →
  f ≠ EmptyString →
  e = EvSockError s ∨ e = EvReadError r ∨
  (e = EvSockClose s ∧ ∀ sk, sockets w !! s = Some sk → sk_closed sk = false) →
  let w1 := fst (step w e) in
  let s2 := length (sockets w) in
  let r2 := length (streams w) in
  let w2 := fst (run w1 [EvPlay req (JStr f); EvInspected req h;
                         EvConnect s2]) in
  snd (step w e) = [Broadcast status_stopped] ∧
  STATE w1 = STATE w ∧
  bytesSent (STATE w1) = Z.of_nat (base + length (written w1 s)) ∧
  activeSocket w1 = None ∧ activeReadStream w1 = None ∧
  socket_open w1 s = false ∧ stream_open w1 r = false ∧
  streaming w2 f c r2 s2 j j ∧
  streams w2 !! r2 = Some {| rs_path := f; rs_pos := bytesSent (STATE w);
                             rs_destroyed := false; rs_pipe := Some s2 |}.
Proof.
  intros Hs Hne He w1 s2 r2 w2. subst w1 w2 s2 r2.
  destruct (interrupted_fields w f c r s base j e Hs He)
    as (w1 & E & Hst & Hidle & Hfs & Hso & Hro & Hwr & Hls & Hlr).
  rewrite E. cbn [fst snd].
  destruct Hs as (Hc & Hf & _ & _ & _ & _ & Hb & Hj).
  assert (Hf1 : files w1 f = Some c) by (by rewrite Hfs).
  destruct (start_streaming w1 f c req h j Hidle Hne Hf1 ltac:(lia))
    as (w2 & out & E2 & _ & Hs2 & _ & _ & _ & Hnew).
  rewrite Hls in Hs2, Hnew, E2. rewrite Hlr in Hs2, Hnew.
  rewrite E2. cbn [fst].
  destruct Hidle as (_ & Ha1 & Hr1 & _).
  split; [done|]. split; [done|]. split.
  { rewrite Hst, Hb, Hwr, length_take, length_drop. f_equal. lia. }
  split; [done|]. split; [done|]. split; [done|]. split; [done|].
  split; [done|]. by rewrite Hnew, Hst.
Qed.

Lemma interrupted_session_resumes_witness :
  let w := fst (run (world0 demo_files)
                  [EvPlay 1 (JStr "a.wav"); EvInspected 1 None; EvConnect 0;
                   EvData 0 3]) in
  let w1 := fst (step w (EvSockError 0)) in
  STATE w1 = STATE w ∧ playing (STATE w1) = true ∧ bytesSent (STATE w1) = 3.
Proof.
  intros w w1.
  assert (Hs : streaming w "a.wav"
                 [Byte.x01; Byte.x02; Byte.x03; Byte.x04;
                  Byte.x05; Byte.x06; Byte.x07; Byte.x08] 0 0 0 3).
  { unfold streaming. vm_compute.
    repeat split; try lia. eexists. repeat split. }
  pose proof (interrupted_session_resumes _ _ _ _ _ _ _ (EvSockError 0) 2 None
                Hs ltac:(discriminate) ltac:(by left)) as H.
  cbv zeta in H. destruct H as (_ & H & _).
  split; [exact H|]. split; reflexivity.
Defined.

(** ** The socket of a replaced session closes late *)

(** X7: a file is streaming and another play request replaces the session.
    The old socket was only ended, and its [close] handler, like every
    handler, works on the variables [activeSocket] and [activeReadStream]:
    when the old socket's [close] arrives after the new connection is up,
    it destroys the new socket and the new read stream.  [STATE] is not
    touched, so [playing] stays true with nothing left to play. *)
Theorem late_close_stops_new_session
  (w : world) (f : string) (c : list Byte.byte) (r s base j : nat)
  (sk0 : socket) (f2 : string) (c2 : list Byte.byte) (req : nat)
  (h : option wav_header) :
  streaming w f c r s base j →
  sockets w !! s = Some sk0 → sk_closed sk0 = false →
  f2 ≠ EmptyString → files w f2 = Some c2 →
  let s2 := length (sockets w) in
  let r2 := length (streams w) in
  let w1 := fst (run w [EvPlay req (JStr f2); EvInspected req h;
                        EvConnect s2]) in
  let w2 := fst (step w1 (EvSockClose s)) in
  (playing (STATE w1) = true ∧ currentFile (STATE w1) = Some f2 ∧
   activeSocket w1 = Some s2 ∧ activeReadStream w1 = Some r2 ∧
   socket_open w1 s2 = true ∧ stream_open w1 r2 = true) ∧
  (snd (step w1 (EvSockClose s)) = [Broadcast status_stopped] ∧
   activeSocket w2 = None ∧ activeReadStream w2 = None ∧
   socket_open w2 s2 = false ∧ stream_open w2 r2 = false ∧
   STATE w2 = STATE w1).
Proof.
  intros (Hc & Hf & Har & Has & Hrs & _ & _ & _) Hsk Hcl Hne Hf2
    s2 r2 w1 w2.
  subst w1 w2.
  destruct (play_fields w req f2 c2 h Hc Hne Hf2)
    as (w1 & E1 & Hst1 & Has1 & Har1 & Hsk1 & Hrs1 & Hfs1 & Hc1).
  rewrite Has in Hsk1. rewrite Har in Hrs1.
  assert (Hs_lt : (s < length (sockets w))%nat)
    by (eapply lookup_lt_Some; eauto).
  assert (Hlen1 : length (alter sk_end s (sockets w)) = s2)
    by apply length_alter.
  assert (Hlook : sockets w1 !! s2 = Some (new_socket f2 req)).
  { rewrite Hsk1, <- Hlen1. apply lookup_last. }
  destruct (connect_fields w1 s2 _ s2 Hc1 Hlook eq_refl eq_refl Has1)
    as (w2 & E2 & Hst2 & Has2 & Har2 & Hsk2 & Hrs2 & Hfs2 & Hc2).
  assert (Hlr : length (streams w1) = r2)
    by (rewrite Hrs1; apply length_alter).
  rewrite Hlr in Har2.
  assert (Erun : run w [EvPlay req (JStr f2); EvInspected req h; EvConnect s2]
                 = (w2, snd (step w1 (EvConnect s2)))).
  { change [EvPlay req (JStr f2); EvInspected req h; EvConnect s2]
      with ([EvPlay req (JStr f2); EvInspected req h] ++ [EvConnect s2]).
    rewrite run_app, E1. cbn [fst snd run]. by rewrite E2. }
  rewrite Erun. cbn [fst].
  assert (Hnewsk : sockets w2 !! s2 = Some (sk_connected (new_socket f2 req))).
  { by rewrite Hsk2, list_lookup_alter_eq, Hlook. }
  assert (Hnewrs : streams w2 !! r2 =
                   Some {| rs_path := f2; rs_pos := start_offset (STATE w1);
                           rs_destroyed := false; rs_pipe := Some s2 |}).
  { rewrite Hrs2, <- Hlr. apply lookup_last. }
  assert (Hold : sockets w2 !! s = Some (sk_end sk0)).
  { rewrite Hsk2, list_lookup_alter_ne by lia.
    rewrite Hsk1, lookup_app_l by (rewrite length_alter; lia).
    by rewrite list_lookup_alter_eq, Hsk. }
  destruct (sock_close_fields w2 s _ Hc2 Hold Hcl)
    as (w3 & E3 & Hst3 & Has3 & Har3 & Hsk3 & Hrs3 & _).
  rewrite Has2 in Hsk3. rewrite Har2 in Hrs3.
  rewrite E3. cbn [fst snd]. split.
  - rewrite Hst2, Hst1. cbn. repeat split; try done.
    + unfold socket_open. by rewrite Hnewsk.
    + unfold stream_open. by rewrite Hnewrs.
  - repeat split; try done.
    + by eapply socket_open_alter_destroy.
    + by eapply stream_open_alter_destroy.
Qed.

Lemma late_close_stops_new_session_witness :
  let w := fst (run (world0 demo_files)
                  [EvPlay 1 (JStr "a.wav"); EvInspected 1 None; EvConnect 0;
                   EvData 0 3]) in
  let w1 := fst (run w [EvPlay 2 (JStr "b.wav"); EvInspected 2 None;
                        EvConnect 1]) in
  let w2 := fst (step w1 (EvSockClose 0)) in
  stream_open w1 1 = true ∧ stream_open w2 1 = false ∧
  playing (STATE w2) = true.
Proof.
  intros w w1 w2.
  assert (Hs : streaming w "a.wav"
                 [Byte.x01; Byte.x02; Byte.x03; Byte.x04;
                  Byte.x05; Byte.x06; Byte.x07; Byte.x08] 0 0 0 3).
  { unfold streaming. vm_compute.
    repeat split; try lia. eexists. repeat split. }
  pose proof (late_close_stops_new_session w _ _ _ _ _ _ _ "b.wav" _ 2 None
                Hs eq_refl eq_refl ltac:(discriminate) eq_refl) as H.
  cbv zeta in H.
  destruct H as ((_ & _ & _ & _ & _ & H1) & (_ & _ & _ & _ & H2 & _)).
  split; [exact H1|]. split; [exact H2 | reflexivity].
Defined.

(** ** A recorded offset at or past the end of the file *)

(** X8: when a file is played whose length does not exceed the recorded
    [bytesSent], the read stream is opened at that offset, delivers no
    chunk, so nothing is written to the socket, and is at end of file at
    once: the [end] handler then resets [bytesSent] to 0 and clears
    [playing]. *)
Theorem offset_past_eof_sends_nothing
  (w : world) (f : string) (c : list Byte.byte) (j : nat) (req : nat)
  (h : option wav_header) :
  idle_at w j → f ≠ EmptyString → files w f = Some c →
  (length c ≤ j)%nat →
  let s := length (sockets w) in
  let r := length (streams w) in
  let w1 := fst (run w [EvPlay req (JStr f); EvInspected req h;
                        EvConnect s]) in
  let w2 := fst (step w1 (EvEnd r)) in
  streams w1 !! r = Some {| rs_path := f; rs_pos := Z.of_nat j;
                            rs_destroyed := false; rs_pipe := Some s |} ∧
  (∀ n, step w1 (EvData r n) = (w1, [])) ∧
  written w1 s = [] ∧
  snd (step w1 (EvEnd r)) = [Broadcast status_stopped] ∧
  bytesSent (STATE w2) = 0 ∧ playing (STATE w2) = false ∧
  stream_open w2 r = false ∧ socket_open w2 s = false.
Proof.
  intros (Hc & Has & Har & Hb) Hne Hf Hlen s r w1 w2. subst w1 w2.
  destruct (play_fields w req f c h Hc Hne Hf)
    as (w1 & E1 & Hst1 & Has1 & Har1 & Hsk1 & Hrs1 & Hfs1 & Hc1).
  rewrite Has in Hsk1. rewrite Har in Hrs1.
  assert (Hlook : sockets w1 !! s = Some (new_socket f req))
    by (rewrite Hsk1; apply lookup_last).
  destruct (connect_fields w1 s _ s Hc1 Hlook eq_refl eq_refl Has1)
    as (w2 & E2 & Hst2 & Has2 & Har2 & Hsk2 & Hrs2 & Hfs2 & Hc2).
  assert (Erun : run w [EvPlay req (JStr f); EvInspected req h; EvConnect s]
                 = (w2, snd (step w1 (EvConnect s)))).
  { change [EvPlay req (JStr f); EvInspected req h; EvConnect s]
      with ([EvPlay req (JStr f); EvInspected req h] ++ [EvConnect s]).
    rewrite run_app, E1. cbn [fst snd run]. by rewrite E2. }
  rewrite Erun. cbn [fst].
  assert (Hoff : start_offset (STATE w1) = Z.of_nat j).
  { rewrite start_offset_bytesSent; rewrite Hst1; cbn; lia. }
  assert (Hr : streams w2 !! r =
               Some {| rs_path := f; rs_pos := Z.of_nat j;
                       rs_destroyed := false; rs_pipe := Some s |}).
  { rewrite Hrs2, Hrs1, Hoff. apply lookup_last. }
  assert (Hf2 : files w2 f = Some c) by (by rewrite Hfs2, Hfs1).
  destruct (end_fields w2 r _ Hc2 Hr eq_refl)
    as (w3 & E3 & Hst3 & Has3 & Har3 & Hsk3 & Hrs3 & _).
  { unfold at_eof. cbn. rewrite Hf2. apply Z.leb_le. lia. }
  rewrite E3. cbn [fst snd]. rewrite Hst3. cbn.
  split; [exact Hr|]. split; [|split; [|repeat split]].
  - intros n. unfold step. rewrite Hc2, Hr. cbn [rs_destroyed].
    unfold read_chunk. cbn [rs_path rs_pos]. rewrite Hf2, Nat2Z.id.
    by rewrite drop_ge, take_nil by lia.
  - unfold written. by rewrite Hsk2, list_lookup_alter_eq, Hlook.
  - by eapply stream_open_alter_destroy.
  - rewrite Has2 in Hsk3. by eapply socket_open_alter_destroy.
Qed.

(** After three bytes of [a.wav], the empty file is played. *)
Lemma offset_past_eof_sends_nothing_witness :
  let w1 := fst (run paused_after_three
                   [EvPlay 3 (JStr "empty.wav"); EvInspected 3 None;
                    EvConnect 1]) in
  step w1 (EvData 1 4) = (w1, []) ∧
  bytesSent (STATE (fst (step w1 (EvEnd 1)))) = 0.
Proof.
  pose proof (offset_past_eof_sends_nothing paused_after_three "empty.wav"
                [] 3 3 None ltac:(by repeat split) ltac:(discriminate)
                eq_refl ltac:(cbn; lia)) as H.
  cbv zeta in H. destruct H as (_ & Hd & _ & _ & Hb & _).
  split; [exact (Hd 4%nat) | exact Hb].
Defined.

(** * The audio parameters *)

Lemma truthyQ_true q : truthyQ q = true ↔ ¬ (q == 0)%Q.
Proof.
  rewrite <- truthyQ_false. destruct (truthyQ q); split; done.
Qed.

Lemma or_num_truthy q d : ¬ (q == 0)%Q → or_num (Some q) d = q.
Proof. intros H. unfold or_num. by rewrite (proj2 (truthyQ_true q) H). Qed.

Lemma or_num_falsy q d : (q == 0)%Q → or_num (Some q) d = d.
Proof. intros H. unfold or_num. by rewrite (proj2 (truthyQ_false q) H). Qed.

Lemma or_num_nonzero o d : ¬ (d == 0)%Q → ¬ (or_num o d == 0)%Q.
Proof.
  intros Hd. unfold or_num. destruct o as [q|]; [|done].
  destruct (truthyQ q) eqn:E; [|done]. by apply truthyQ_true.
Qed.

Lemma num_or_or_num x d : num_or x (Some d) = Some (or_num x d).
Proof.
  unfold num_or, or_num. destruct x as [q|]; [|done].
  by destruct (truthyQ q).
Qed.

Lemma inspectWav_rate (h : wav_header) :
  (∀ sr, sample_rate h = Some sr → ¬ (sr == 0)%Q →
     info_sampleRate (inspectWav h) = Some sr ∧
     ∃ q, info_byteRate (inspectWav h) = Some q ∧
          (q == sr * or_num (channels h) 1
                * (or_num (bits_per_sample h) 16 / 8))%Q ∧
          ¬ (q == 0)%Q) ∧
  ((∀ sr, sample_rate h = Some sr → (sr == 0)%Q) →
     info_sampleRate (inspectWav h) = None ∧
     info_byteRate (inspectWav h) = None).
Proof.
  unfold inspectWav. rewrite !num_or_or_num. split.
  - intros sr Hsr Hnz. rewrite Hsr. cbn [num_or info_sampleRate info_byteRate].
    rewrite (proj2 (truthyQ_true sr) Hnz).
    assert (Hb : ¬ (or_num (bits_per_sample h) 16 == 0)%Q)
      by (by apply or_num_nonzero).
    assert (Hch : ¬ (or_num (channels h) 1 == 0)%Q)
      by (by apply or_num_nonzero).
    rewrite (proj2 (truthyQ_true _) Hb), ?(proj2 (truthyQ_true sr) Hnz).
    cbn [andb].
    split; [done|]. eexists. split; [done|]. split; [reflexivity|].
    intros H0. apply Qmult_integral in H0 as [H0 | H0].
    + apply Qmult_integral in H0 as [H0 | H0]; contradiction.
    + apply Hb. unfold Qdiv in H0.
      apply Qmult_integral in H0 as [H0 | H0]; [done | discriminate].
  - intros Hsr. destruct (sample_rate h) as [sr|]; [|done].
    cbn [num_or info_sampleRate info_byteRate].
    by rewrite (proj2 (truthyQ_false sr) (Hsr sr eq_refl)).
Qed.

(** X11: [inspectWav] computes a byte rate exactly when the header gives a
    nonzero sample rate; the rate is then
    [sample_rate * channels * (bits_per_sample / 8)], with 1 channel and 16
    bits standing in for values the header lacks, and it is not zero.
    Without a sample rate both [sampleRate] and [byteRate] are [null]. *)
Theorem inspectWav_byteRate (h : wav_header) :
  (∀ sr, sample_rate h = Some sr → ¬ (sr == 0)%Q →
     info_sampleRate (inspectWav h) = Some sr ∧
     ∃ q, info_byteRate (inspectWav h) = Some q ∧
          (q == sr * or_num (channels h) 1
                * (or_num (bits_per_sample h) 16 / 8))%Q ∧
          ¬ (q == 0)%Q) ∧
  ((∀ sr, sample_rate h = Some sr → (sr == 0)%Q) →
     info_sampleRate (inspectWav h) = None ∧
     info_byteRate (inspectWav h) = None).
Proof. exact (inspectWav_rate h). Qed.

(** A header that gives only 44100 samples per second: 16-bit mono. *)
Lemma inspectWav_byteRate_witness :
  ∃ q, info_byteRate (inspectWav (WavHeader (Some 44100%Q) None None None))
         = Some q ∧ (q == 88200)%Q.
Proof.
  destruct (inspectWav_byteRate (WavHeader (Some 44100%Q) None None None))
    as [H _].
  destruct (H 44100%Q eq_refl ltac:(discriminate)) as (_ & q & Hq & He & _).
  exists q. split; [exact Hq|]. rewrite He. reflexivity.
Defined.

(** X12: what a play request stores of the inspection.  With a nonzero
    sample rate in the header, [STATE.byteRate] becomes the computed rate
    (and is not zero); without one it keeps the value it had, that of the
    file played before.  In the same way [STATE.durationSec] becomes the
    header's length when that is nonzero and is kept otherwise. *)
Theorem play_stores_metadata
  (w : world) (req : nat) (id : string) (c : list Byte.byte)
  (h : wav_header) :
  crashed w = false → id ≠ EmptyString → files w id = Some c →
  let st1 := STATE (fst (run w [EvPlay req (JStr id);
                                EvInspected req (Some h)])) in
  (∀ sr, sample_rate h = Some sr → ¬ (sr == 0)%Q →
     (byteRate st1 == sr * or_num (channels h) 1
                      * (or_num (bits_per_sample h) 16 / 8))%Q ∧
     ¬ (byteRate st1 == 0)%Q) ∧
  ((∀ sr, sample_rate h = Some sr → (sr == 0)%Q) →
     byteRate st1 = byteRate (STATE w)) ∧
  (∀ d, length_sec h = Some d → ¬ (d == 0)%Q → durationSec st1 = d) ∧
  ((∀ d, length_sec h = Some d → (d == 0)%Q) →
     durationSec st1 = durationSec (STATE w)).
Proof.
  intros Hc Hne Hf st1. subst st1.
  destruct (play_fields w req id c (Some h) Hc Hne Hf) as (w1 & -> & Hst & _).
  cbn [fst]. rewrite Hst. cbn [byteRate durationSec inspect_or_empty].
  destruct (inspectWav_rate h) as [Hrate Hnone].
  split; [|split; [|split]].
  - intros sr Hsr Hnz.
    destruct (Hrate sr Hsr Hnz) as (_ & q & -> & He & Hq).
    by rewrite or_num_truthy.
  - intros Hsr. by destruct (Hnone Hsr) as [_ ->].
  - intros d Hd Hnz. unfold inspectWav. cbn [info_duration]. rewrite Hd.
    unfold num_or. rewrite (proj2 (truthyQ_true d) Hnz).
    by apply or_num_truthy.
  - intros Hd. unfold inspectWav. cbn [info_duration].
    destruct (length_sec h) as [d|]; [|done].
    unfold num_or. by rewrite (proj2 (truthyQ_false d) (Hd d eq_refl)).
Qed.

Lemma play_stores_metadata_witness :
  let st1 := STATE (fst (run (world0 demo_files)
                           [EvPlay 1 (JStr "a.wav");
                            EvInspected 1 (Some (WavHeader (Some 48000%Q)
                                                   (Some 16%Q) (Some 2%Q)
                                                   (Some 3%Q)))])) in
  (byteRate st1 == 192000)%Q ∧ durationSec st1 = 3%Q.
Proof.
  pose proof (play_stores_metadata (world0 demo_files) 1 "a.wav" _
                (WavHeader (Some 48000%Q) (Some 16%Q) (Some 2%Q) (Some 3%Q))
                eq_refl ltac:(discriminate) eq_refl) as H.
  cbv zeta in H. destruct H as (Hr & _ & Hd & _).
  split.
  - destruct (Hr 48000%Q eq_refl ltac:(discriminate)) as [He _].
    rewrite He. reflexivity.
  - apply (Hd 3%Q eq_refl). discriminate.
Defined.

(** * Two facts about play, at concrete sessions *)

(** [b.wav] played after [a.wav] was paused at three bytes. *)
Lemma play_never_resets_offset_witness :
  let w2 := fst (run paused_after_three
                   [EvPlay 3 (JStr "b.wav"); EvInspected 3 None;
                    EvConnect 1]) in
  bytesSent (STATE w2) = 3 ∧
  ∃ rs, streams w2 !! 1%nat = Some rs ∧
        rs_path rs = "b.wav" ∧ rs_pos rs = 3.
Proof.
  apply (play_never_resets_offset paused_after_three 3 "b.wav" _ None
           eq_refl ltac:(discriminate) eq_refl
           ltac:(vm_compute; discriminate)).
Defined.

(** A refused connection in a fresh process. *)
Lemma connect_failure_unanswered_witness :
  responses 1 (snd (run (world0 demo_files)
                      [EvPlay 1 (JStr "a.wav"); EvInspected 1 None;
                       EvSockError 0])) = [].
Proof.
  apply (connect_failure_unanswered (world0 demo_files) 1 "a.wav" _
           None eq_refl ltac:(discriminate) eq_refl).
Defined.

(** * Stored names and the file list *)

Local Open Scope N_scope.

Lemma uint_units_digits d : Forall is_digit (uint_units d).
Proof.
  induction d; cbn; constructor; try done; unfold is_digit; lia.
Qed.

Lemma uint_units_inj d d' : uint_units d = uint_units d' → d = d'.
Proof.
  revert d'. induction d; intros [] H; cbn in H; try discriminate H;
    try reflexivity; injection H as H; f_equal; by apply IHd.
Qed.

Lemma decimal_digits n : Forall is_digit (decimal n).
Proof. apply uint_units_digits. Qed.

Lemma decimal_nonempty n : decimal n ≠ [].
Proof.
  unfold decimal. destruct n as [|p]; [done|]. cbn.
  pose proof (DecimalPos.Unsigned.to_uint_nonnil p) as Hn.
  by destruct (Pos.to_uint p).
Qed.

Lemma decimal_inj n n' : decimal n = decimal n' → n = n'.
Proof.
  intros H. by apply DecimalN.Unsigned.to_uint_inj, uint_units_inj.
Qed.

Lemma digit_safe u : is_digit u → safe_unit u = true.
Proof.
  unfold is_digit, safe_unit. intros [H1 H2].
  apply N.leb_le in H1, H2. rewrite H1, H2. cbn.
  by rewrite !orb_true_r.
Qed.

Lemma digit_not_underscore u : is_digit u → u ≠ 95.
Proof. unfold is_digit. lia. Qed.

Lemma sanitize_unit_safe u : safe_unit (if safe_unit u then u else 95) = true.
Proof. by destruct (safe_unit u) eqn:E. Qed.

Lemma sanitize_all_safe s : Forall (fun u => safe_unit u = true) (sanitize s).
Proof.
  unfold sanitize. apply Forall_map, Forall_forall. intros u _.
  apply sanitize_unit_safe.
Qed.

(** X13: [sanitize] keeps the length of a name, yields only code units of
    [a-zA-Z0-9_.-], leaves such a name as it is, and so changes nothing
    when applied again. *)
Theorem sanitize_projects (s : jsstring) :
  length (sanitize s) = length s ∧
  Forall (fun u => safe_unit u = true) (sanitize s) ∧
  (Forall (fun u => safe_unit u = true) s → sanitize s = s) ∧
  sanitize (sanitize s) = sanitize s.
Proof.
  assert (Hfix : ∀ l, Forall (fun u => safe_unit u = true) l →
                      sanitize l = l).
  { intros l Hl. unfold sanitize. induction Hl as [|u l Hu _ IH]; [done|].
    cbn. by rewrite Hu, IH. }
  split; [apply length_map|]. split; [apply sanitize_all_safe|].
  split; [apply Hfix|]. apply Hfix, sanitize_all_safe.
Qed.

Lemma sanitize_projects_witness :
  sanitize (units "song-1.wav") = units "song-1.wav".
Proof.
  apply (proj1 (proj2 (proj2 (sanitize_projects (units "song-1.wav"))))).
  vm_compute. repeat constructor.
Defined.

(** X14: the name an upload is stored under starts with a decimal digit and
    consists of code units of [a-zA-Z0-9_.-] only, whatever the original
    name: it holds no [/], no [\] and no NUL, and is neither [.] nor
    [..]. *)
Theorem filename_is_safe (now : N) (originalname : jsstring) :
  Forall (fun u => safe_unit u = true) (filename now originalname) ∧
  (∃ d rest, filename now originalname = d :: rest ∧ 48 <= d <= 57) ∧
  (47 ∉ filename now originalname) ∧
  (92 ∉ filename now originalname) ∧
  (0 ∉ filename now originalname) ∧
  length (filename now originalname)
    = (length (decimal now) + 1 + length originalname)%nat.
Proof.
  assert (Hsafe : Forall (fun u => safe_unit u = true)
                    (filename now originalname)).
  { unfold filename. apply Forall_app. split.
    - eapply Forall_impl; [apply decimal_digits | apply digit_safe].
    - apply Forall_app. split; [by repeat constructor|].
      apply sanitize_all_safe. }
  assert (Hnot : ∀ u, safe_unit u = false → u ∉ filename now originalname).
  { intros u Hu Hin. rewrite Forall_forall in Hsafe.
    specialize (Hsafe u Hin). congruence. }
  split; [exact Hsafe|]. split; [|repeat split; try by apply Hnot].
  - unfold filename. pose proof (decimal_digits now) as Hd.
    pose proof (decimal_nonempty now) as Hne.
    destruct (decimal now) as [|d rest]; [done|].
    exists d, (rest ++ [95] ++ sanitize originalname). split; [done|].
    by apply Forall_cons_1 in Hd as [Hd _].
  - unfold filename, sanitize. rewrite !length_app, length_map. cbn. lia.
Qed.

Lemma first_separator {A} (x : A) (l1 l2 r1 r2 : list A) :
  x ∉ l1 → x ∉ l2 → l1 ++ x :: r1 = l2 ++ x :: r2 → l1 = l2 ∧ r1 = r2.
Proof.
  revert l2. induction l1 as [|a l1 IH]; intros [|b l2] H1 H2 E; cbn in E.
  - by injection E as ->.
  - injection E as -> _. exfalso. apply H2. by left.
  - injection E as -> _. exfalso. apply H1. by left.
  - injection E as -> E. destruct (IH l2) as [-> ->]; try done.
    + intros Hin. apply H1. by right.
    + intros Hin. apply H2. by right.
Qed.

Lemma underscore_not_in_decimal n : 95 ∉ decimal n.
Proof.
  intros Hin. pose proof (decimal_digits n) as Hd.
  rewrite Forall_forall in Hd. by apply (digit_not_underscore _ (Hd _ Hin)).
Qed.

(** X15: two uploads are stored under the same name exactly when they arrive
    in the same millisecond with original names that [sanitize] maps to the
    same name; the time stamp and the sanitized name can be read back from
    the stored name. *)
Theorem filename_collision (n1 n2 : N) (o1 o2 : jsstring) :
  filename n1 o1 = filename n2 o2 ↔ n1 = n2 ∧ sanitize o1 = sanitize o2.
Proof.
  split.
  - unfold filename. cbn [app]. intros E.
    apply first_separator in E as [Ed Es];
      try apply underscore_not_in_decimal.
    split; [by apply decimal_inj | done].
  - intros [-> E]. unfold filename. by rewrite E.
Qed.

Lemma filename_collision_witness :
  filename 1700000000000 (units "my song.wav")
    = filename 1700000000000 (units "my/song.wav").
Proof.
  apply (filename_collision 1700000000000 1700000000000
           (units "my song.wav") (units "my/song.wav")).
  split; reflexivity.
Defined.

Lemma is_wav_snoc4 p dot w a v :
  is_wav (p ++ [dot; w; a; v]) = wav_units dot w a v.
Proof. unfold is_wav. by rewrite rev_app_distr. Qed.

Lemma is_wav_short f : (length f < 4)%nat → is_wav f = false.
Proof.
  intros H. unfold is_wav. rewrite <- length_rev in H.
  destruct (rev f) as [|v [|a [|w [|dot l]]]]; cbn in H; try done; lia.
Qed.

Lemma split_last4 {A} (f : list A) :
  (4 ≤ length f)%nat → ∃ p dot w a v, f = p ++ [dot; w; a; v].
Proof.
  intros H. exists (take (length f - 4) f).
  pose proof (take_drop (length f - 4) f) as E.
  assert (Hl : length (drop (length f - 4) f) = 4%nat)
    by (rewrite length_drop; lia).
  destruct (drop (length f - 4) f) as [|dot [|w [|a [|v [|x l]]]]];
    try discriminate Hl.
  by exists dot, w, a, v.
Qed.

Lemma is_wav_suffix f :
  is_wav f = true ↔
  ∃ p w a v, f = p ++ [46; w; a; v] ∧ (w = 119 ∨ w = 87) ∧
             (a = 97 ∨ a = 65) ∧ (v = 118 ∨ v = 86).
Proof.
  split.
  - intros H. destruct (le_lt_dec 4 (length f)) as [Hl|Hl].
    + destruct (split_last4 f Hl) as (p & dot & w & a & v & ->).
      rewrite is_wav_snoc4 in H. unfold wav_units in H.
      rewrite !andb_true_iff, !orb_true_iff, !N.eqb_eq in H.
      destruct H as [[[-> Hw] Ha] Hv]. by exists p, w, a, v.
    + by rewrite is_wav_short in H.
  - intros (p & w & a & v & -> & Hw & Ha & Hv). rewrite is_wav_snoc4.
    unfold wav_units. rewrite !andb_true_iff, !orb_true_iff, !N.eqb_eq.
    done.
Qed.

Lemma sanitize_unit_eqb u k :
  safe_unit k = true → k ≠ 95 →
  ((if safe_unit u then u else 95) =? k) = (u =? k).
Proof.
  intros Hk Hne. destruct (safe_unit u) eqn:Hu; [done|].
  destruct (N.eqb_spec u k) as [->|_]; [congruence|].
  by apply N.eqb_neq.
Qed.

Lemma wav_units_sanitize dot w a v :
  wav_units (if safe_unit dot then dot else 95)
            (if safe_unit w then w else 95)
            (if safe_unit a then a else 95)
            (if safe_unit v then v else 95)
  = wav_units dot w a v.
Proof.
  unfold wav_units. by rewrite !sanitize_unit_eqb.
Qed.

Lemma is_wav_underscore l t :
  (length t < 4)%nat → is_wav (l ++ 95 :: t) = false.
Proof.
  intros H. unfold is_wav. rewrite rev_app_distr. cbn [rev].
  rewrite <- app_assoc. cbn [app]. rewrite <- length_rev in H.
  destruct (rev t) as [|x1 [|x2 [|x3 [|x4 r]]]]; cbn in H; try lia;
    cbn [app]; destruct (rev l) as [|y1 [|y2 [|y3 r']]];
    unfold wav_units; cbn; rewrite ?andb_false_r; done.
Qed.

Lemma is_wav_filename (now : N) (originalname : jsstring) :
  is_wav (filename now originalname) = is_wav originalname.
Proof.
  unfold filename.
  destruct (le_lt_dec 4 (length originalname)) as [Hl|Hl].
  - destruct (split_last4 originalname Hl) as (p & dot & w & a & v & ->).
    unfold sanitize. rewrite map_app. cbn [map]. rewrite !app_assoc.
    rewrite !is_wav_snoc4. apply wav_units_sanitize.
  - rewrite (is_wav_short originalname Hl). cbn [app].
    apply is_wav_underscore. unfold sanitize. by rewrite length_map.
Qed.

(** X16: an upload is stored under a name that ends in [.wav] (in any
    letter case) exactly when its original name does; a name shorter than
    four code units never does. *)
Theorem filename_keeps_wav (now : N) (originalname : jsstring) :
  is_wav (filename now originalname) = is_wav originalname ∧
  ((length originalname < 4)%nat → is_wav (filename now originalname) = false).
Proof.
  split; [apply is_wav_filename|]. intros H.
  rewrite is_wav_filename. by apply is_wav_short.
Qed.

Lemma filename_keeps_wav_witness :
  is_wav (filename 1700000000000 (units "wav")) = false.
Proof.
  apply (filename_keeps_wav 1700000000000 (units "wav")). vm_compute. lia.
Defined.

(** X17: the file list has one entry for each directory entry whose name
    ends in a dot followed by the letters w, a, v in either case, and no
    other entry; an entry has the file name as both [id] and [name], and as
    [duration] the inspected length, or 0 when that is missing or the
    inspection fails.  This holds whatever order the locale's comparison
    gives, the sort being a rearrangement. *)
Theorem api_files_lists_wav
  (sort : list file_entry → list file_entry) (dir : list jsstring)
  (inspect : jsstring → option wav_header) :
  (∀ l, sort l ≡ₚ l) →
  ∃ out,
    api_files sort (Some dir) inspect = FilesOk out ∧
    out ≡ₚ map (list_entry inspect) (filter (fun f => is_wav f = true) dir) ∧
    length out = length (filter (fun f => is_wav f = true) dir) ∧
    (∀ e, e ∈ out →
       fe_id e ∈ dir ∧ e = list_entry inspect (fe_id e) ∧
       fe_name e = fe_id e ∧
       ∃ p w a v, fe_id e = p ++ [46; w; a; v] ∧ (w = 119 ∨ w = 87) ∧
                  (a = 97 ∨ a = 65) ∧ (v = 118 ∨ v = 86)) ∧
    (∀ f, f ∈ dir → is_wav f = true → list_entry inspect f ∈ out).
Proof.
  intros Hsort. eexists. split; [reflexivity|].
  set (wavs := filter (fun f => is_wav f = true) dir).
  split; [apply Hsort|]. split.
  { rewrite (Permutation_length (Hsort _)). apply length_map. }
  split.
  - intros e He. rewrite (Hsort _) in He.
    apply list_elem_of_In, in_map_iff in He as (f & <- & Hf).
    apply list_elem_of_In, list_elem_of_filter in Hf as [Hw Hd].
    cbn [list_entry fe_id fe_name]. repeat split; try done.
    by apply is_wav_suffix.
  - intros f Hd Hw. rewrite (Hsort _).
    apply list_elem_of_In, in_map, list_elem_of_In, list_elem_of_filter.
    by split.
Qed.

(** A directory with two audio files and a text file, listed in reverse. *)
Lemma api_files_lists_wav_witness :
  ∃ out,
    api_files reverse
      (Some [units "1_a.wav"; units "notes.txt"; units "2_b.WAV"])
      (fun _ => None) = FilesOk out ∧
    length out = 2%nat.
Proof.
  destruct (api_files_lists_wav reverse
              [units "1_a.wav"; units "notes.txt"; units "2_b.WAV"]
              (fun _ => None) (fun l => reverse_Permutation l))
    as (out & E & _ & Hl & _).
  exists out. split; [exact E | exact Hl].
Defined.

(** X18: an upload is answered with the stored name as [id], the original
    name as [name] and as [duration] the length the inspection of the
    stored file gives, or 0 when that length is missing or zero or the
    inspection fails; it announces [files-updated].  Once the stored file
    is in the directory, the list shows it under that [id] with that
    [duration] if the original name ended in [.wav]; otherwise the file is
    stored but no entry of the list has its [id]. *)
Theorem upload_then_list
  (now : N) (originalname : jsstring)
  (sort : list file_entry → list file_entry) (dir : list jsstring)
  (inspect : jsstring → option wav_header) :
  (∀ l, sort l ≡ₚ l) →
  filename now originalname ∈ dir →
  let id := filename now originalname in
  let d := match inspect id with
           | Some h => or_num (length_sec h) 0%Q
           | None => 0%Q
           end in
  api_upload_audio now (Some originalname) inspect
    = (UploadOk id originalname d, [FilesUpdated]) ∧
  ∃ out,
    api_files sort (Some dir) inspect = FilesOk out ∧
    (is_wav originalname = true → FileEntry id id d ∈ out) ∧
    (is_wav originalname = false → ∀ e, e ∈ out → fe_id e ≠ id).
Proof.
  intros Hsort Hin id d.
  assert (Hd : ∀ h, or_num (info_duration (inspectWav h)) 0%Q
                    = or_num (length_sec h) 0%Q).
  { intros h. unfold inspectWav. cbn [info_duration]. unfold num_or, or_num.
    destruct (length_sec h) as [q|]; [|done].
    destruct (truthyQ q) eqn:E; [by rewrite E | done]. }
  assert (Hentry : list_entry inspect id = FileEntry id id d).
  { unfold list_entry. subst d. f_equal.
    destruct (inspect id); [apply Hd | done]. }
  split.
  - unfold api_upload_audio. fold id. subst d.
    destruct (inspect id); [by rewrite Hd | done].
  - eexists. split; [reflexivity|]. split.
    + intros Hw. rewrite (Hsort _), <- Hentry.
      apply list_elem_of_In, in_map, list_elem_of_In, list_elem_of_filter.
      split; [|done]. subst id. by rewrite is_wav_filename.
    + intros Hw e He Hid. rewrite (Hsort _) in He.
      apply list_elem_of_In, in_map_iff in He as (f & <- & Hf).
      apply list_elem_of_In, list_elem_of_filter in Hf as [Hf _].
      cbn in Hid. subst f id. rewrite is_wav_filename in Hf. congruence.
Qed.

(** An upload whose header gives a length of 3 seconds. *)
Lemma upload_then_list_witness :
  let inspect := fun _ : jsstring =>
                   Some (WavHeader (Some 48000%Q) None None (Some 3%Q)) in
  api_upload_audio 17 (Some (units "a b.wav")) inspect
    = (UploadOk (units "17_a_b.wav") (units "a b.wav") 3%Q, [FilesUpdated]) ∧
  ∃ out,
    api_files reverse (Some [filename 17 (units "a b.wav")]) inspect
      = FilesOk out ∧
    FileEntry (units "17_a_b.wav") (units "17_a_b.wav") 3%Q ∈ out.
Proof.
  intros inspect.
  destruct (upload_then_list 17 (units "a b.wav") reverse
              [filename 17 (units "a b.wav")] inspect
              (fun l => reverse_Permutation l) ltac:(by left))
    as (Hup & out & E & Hyes & _).
  split; [exact Hup|].
  exists out. split; [exact E|]. exact (Hyes eq_refl).
Defined.

(** * The client's clock *)

Local Close Scope N_scope.

Lemma Qfloor_unique (z : Z) (x : Q) :
  (inject_Z z <= x)%Q → (x < inject_Z (z + 1))%Q → Qfloor x = z.
Proof.
  intros Hle Hlt.
  assert (H1 : z <= Qfloor x).
  { rewrite <- (Qfloor_Z z). by apply Qfloor_resp_le. }
  assert (H2 : Qfloor x < z + 1).
  { rewrite Zlt_Qlt. eapply Qle_lt_trans; [apply Qfloor_le | exact Hlt]. }
  lia.
Qed.

Lemma Qfloor_div_60 (q : Q) : Qfloor (q / 60) = Qfloor q / 60.
Proof.
  destruct q as [n d]. cbn. rewrite Z.mul_1_r, Pos2Z.inj_mul.
  by rewrite Z.div_div by lia.
Qed.

Lemma Qtrunc_nonneg (q : Q) : (0 <= q)%Q → Qtrunc q = Qfloor q.
Proof.
  destruct q as [n d]. unfold Qle, Qtrunc. cbn. intros H.
  apply Z.quot_div_nonneg; lia.
Qed.

Lemma js_rem_60 (q : Q) :
  (0 <= q)%Q → Qfloor (js_rem q 60) = Qfloor q mod 60.
Proof.
  intros Hq. unfold js_rem.
  assert (H60 : (0 <= q / 60)%Q).
  { apply Qle_shift_div_l; [done|]. by rewrite Qmult_0_l. }
  rewrite (Qtrunc_nonneg _ H60), Qfloor_div_60.
  pose proof (Qfloor_le q) as Hle. pose proof (Qlt_floor q) as Hlt.
  rewrite inject_Z_plus in Hlt.
  rewrite (Z.mod_eq (Qfloor q) 60) by lia.
  apply Qfloor_unique.
  - unfold Z.sub. rewrite inject_Z_plus, inject_Z_opp, inject_Z_mult.
    change (inject_Z 60) with 60%Q. lra.
  - unfold Z.sub. rewrite !inject_Z_plus, inject_Z_opp, inject_Z_mult.
    change (inject_Z 60) with 60%Q. lra.
Qed.

Lemma js_int_nonneg z : 0 <= z → js_int z = decimal (Z.to_N z).
Proof. intros H. unfold js_int. by rewrite (proj2 (Z.ltb_ge z 0) H). Qed.

Lemma two_digits n : (n < 100)%N → length (pad2 (decimal n)) = 2%nat.
Proof.
  intros H.
  assert (Hall : forallb
                   (fun k => Nat.eqb (length (pad2 (decimal (N.of_nat k)))) 2)
                   (seq 0 100) = true) by (vm_compute; reflexivity).
  rewrite forallb_forall in Hall.
  specialize (Hall (N.to_nat n)). rewrite N2Nat.id in Hall.
  apply Nat.eqb_eq, Hall, in_seq. lia.
Qed.

(** X19: for a time [q] in seconds with [0 <= q < 2^52], the range in
    which the code's doubles compute what [humanTime] is defined by,
    [humanTime] shows the whole seconds [Qfloor q] as minutes and seconds,
    each written in decimal and padded to two digits: the minutes are
    [Qfloor q / 60] and are not folded into hours, the seconds are
    [Qfloor q mod 60].  Below 100 minutes the text has exactly five
    characters. *)
Theorem humanTime_minutes_seconds (q : Q) :
  (0 <= q)%Q →
  (q < 4503599627370496)%Q →
  humanTime (Some q) =
    pad2 (decimal (Z.to_N (Qfloor q / 60))) ++ [58%N]
      ++ pad2 (decimal (Z.to_N (Qfloor q mod 60))) ∧
  ((q < 6000)%Q → length (humanTime (Some q)) = 5%nat).
Proof.
  intros Hq _.
  assert (HF : 0 <= Qfloor q).
  { rewrite <- (Qfloor_Z 0). by apply Qfloor_resp_le. }
  assert (E : humanTime (Some q) =
              pad2 (decimal (Z.to_N (Qfloor q / 60))) ++ [58%N]
                ++ pad2 (decimal (Z.to_N (Qfloor q mod 60)))).
  { cbn [humanTime]. rewrite Qfloor_div_60, (js_rem_60 q Hq).
    rewrite !js_int_nonneg; [done | |].
    - apply Z.mod_pos_bound. lia.
    - apply Z.div_pos; lia. }
  split; [exact E|]. intros Hlt. rewrite E.
  assert (HF' : Qfloor q < 6000).
  { rewrite Zlt_Qlt. eapply Qle_lt_trans; [apply Qfloor_le | exact Hlt]. }
  rewrite !length_app, !two_digits; [done | |].
  - pose proof (Z.mod_pos_bound (Qfloor q) 60 ltac:(lia)). lia.
  - assert (Qfloor q / 60 < 100) by (apply Z.div_lt_upper_bound; lia).
    pose proof (Z.div_pos (Qfloor q) 60 HF ltac:(lia)). lia.
Qed.

(** 754.5 seconds are shown as 12:34. *)
Lemma humanTime_minutes_seconds_witness :
  humanTime (Some (1509 # 2)%Q) = units "12:34".
Proof.
  rewrite (proj1 (humanTime_minutes_seconds (1509 # 2)%Q
                    ltac:(discriminate) ltac:(reflexivity))).
  reflexivity.
Defined.
